(** * shortenKeys (src/server.js): key shortening with a shared alias table

    A shallow embedding of [shortenKeys] and of the JavaScript operations it
    is built from, followed by the properties of the specification.

    Conventions.
    - A JavaScript string is a [string]: one [ascii] per UTF-16 code unit,
      for the code units below 256 (Basic Latin and Latin-1 Supplement).
    - A plain object is the list of its own enumerable properties in the
      order in which [Object.keys], [Object.values] and [Object.entries]
      enumerate them: array-index keys first, in ascending numeric order,
      then the other keys in insertion order.
    - The alias table is one mutable object shared by all recursive calls;
      it is threaded through the calls as explicit state.
    - A [while] loop takes a fuel argument and yields [None] when the fuel
      runs out before the loop condition becomes false. *)

From Stdlib Require Import String Ascii List Arith PeanoNat NArith ZArith Lia Bool.
From Stdlib Require Import Decimal DecimalString DecimalNat Permutation Finite.
Import ListNotations.
Open Scope string_scope.

(** ** JavaScript strings *)

Module JsString.

(** The character class [[aeiou]] under the flags [gi] (no [u] flag):
    exactly the ten ASCII vowels. *)
Definition is_vowel (c : ascii) : bool :=
  match c with
  | "a" | "e" | "i" | "o" | "u"
  | "A" | "E" | "I" | "O" | "U" => true
  | _ => false
  end%char.

(** [s.replace(/[aeiou]/gi, '')] *)
Fixpoint remove_vowels (s : string) : string :=
  match s with
  | EmptyString => EmptyString
  | String c r => if is_vowel c then remove_vowels r else String c (remove_vowels r)
  end.

(** [toLowerCase] on one code unit below 256: A-Z and the Latin-1 capitals
    (0xC0-0xDE without the multiplication sign 0xD7) move up by 32. Code
    units from 256 on, where the mapping of JavaScript can change the
    number of units, are outside these strings. *)
Definition lower_unit (c : ascii) : ascii :=
  let n := nat_of_ascii c in
  if (((65 <=? n) && (n <=? 90))
      || ((192 <=? n) && (n <=? 222) && negb (n =? 215)))%nat
  then ascii_of_nat (n + 32) else c.

(** [s.toLowerCase()] *)
Fixpoint toLowerCase (s : string) : string :=
  match s with
  | EmptyString => EmptyString
  | String c r => String (lower_unit c) (toLowerCase r)
  end.

(** [s.substring(0, n)] is [substring 0 n s] of the Standard Library. *)

(** [String(n)] for a non-negative integer [n]: its decimal digits. *)
Definition decimal (n : nat) : string := NilEmpty.string_of_uint (Nat.to_uint n).

(** [!s] for a string: only the empty string is falsy. *)
Definition is_empty (s : string) : bool :=
  match s with EmptyString => true | _ => false end.

End JsString.

(** ** Plain JavaScript objects *)

Module JsObject.

Definition t (A : Type) : Type := list (string * A).

Definition Object_keys {A} (o : t A) : list string := map fst o.
Definition Object_values {A} (o : t A) : list A := map snd o.
Definition Object_entries {A} (o : t A) : list (string * A) := o.

(** The own property [k] of [o], if any. *)
Fixpoint own {A} (o : t A) (k : string) : option A :=
  match o with
  | [] => None
  | (k', v) :: r => if String.eqb k' k then Some v else own r k
  end.

Definition digit_value (c : ascii) : option N :=
  let n := N_of_ascii c in
  if ((48 <=? n) && (n <=? 57))%N then Some (n - 48)%N else None.

Fixpoint digits_value (s : string) (acc : N) : option N :=
  match s with
  | EmptyString => Some acc
  | String c r =>
      match digit_value c with
      | Some d => digits_value r (10 * acc + d)%N
      | None => None
      end
  end.

(** A property key is an array index when it is the canonical decimal
    form of an integer between 0 and 2^32 - 2. *)
Definition array_index (k : string) : option N :=
  match k with
  | EmptyString => None
  | String "0" EmptyString => Some 0%N
  | String "0" _ => None
  | _ =>
      if (String.length k <=? 10)%nat then
        match digits_value k 0 with
        | Some n => if (n <=? 4294967294)%N then Some n else None
        | None => None
        end
      else None
  end.

(** Replace the value of the own property [k], which keeps its place. *)
Fixpoint update {A} (o : t A) (k : string) (v : A) : t A :=
  match o with
  | [] => []
  | (k', v') :: r =>
      if String.eqb k' k then (k', v) :: r else (k', v') :: update r k v
  end.

(** Create the array-index property [k] (index [n]) at its numeric place. *)
Fixpoint add_index {A} (o : t A) (n : N) (k : string) (v : A) : t A :=
  match o with
  | [] => [(k, v)]
  | (k', v') :: r =>
      match array_index k' with
      | Some n' => if (n <? n')%N then (k, v) :: o else (k', v') :: add_index r n k v
      | None => (k, v) :: o
      end
  end.

(** Create the own property [k], which [o] does not have yet. *)
Definition add {A} (o : t A) (k : string) (v : A) : t A :=
  match array_index k with
  | Some n => add_index o n k v
  | None => (o ++ [(k, v)])%list
  end.

(** [o[k] = v] on a plain object whose prototype is [Object.prototype]:
    an own property is overwritten in place; otherwise the key
    ["__proto__"] reaches the accessor of [Object.prototype], which
    creates no own property; any other key becomes a new own property. *)
Definition set {A} (o : t A) (k : string) (v : A) : t A :=
  match own o k with
  | Some _ => update o k v
  | None => if String.eqb k "__proto__" then o else add o k v
  end.

(** [Object.assign(target, source)] *)
Definition Object_assign {A} (target source : t A) : t A :=
  fold_left (fun o kv => set o (fst kv) (snd kv)) (Object_entries source) target.

(** An object literal [{ k1: v1, k2: v2, ... }], given by its source text. *)
Definition literal {A} (text : list (string * A)) : t A :=
  fold_left (fun o kv =>
               match own o (fst kv) with
               | Some _ => update o (fst kv) (snd kv)
               | None => add o (fst kv) (snd kv)
               end) text [].

(** The properties every plain object inherits from [Object.prototype]
    (V8), each with the property key its value turns into when it is used
    as one: a built-in function prints as its source text, and the
    accessor [__proto__] yields [Object.prototype] itself. *)
Definition native (name : string) : string :=
  "function " ++ name ++ "() { [native code] }".

Definition Object_prototype : t string :=
  [ ("constructor", native "Object");
    ("__defineGetter__", native "__defineGetter__");
    ("__defineSetter__", native "__defineSetter__");
    ("hasOwnProperty", native "hasOwnProperty");
    ("__lookupGetter__", native "__lookupGetter__");
    ("__lookupSetter__", native "__lookupSetter__");
    ("isPrototypeOf", native "isPrototypeOf");
    ("propertyIsEnumerable", native "propertyIsEnumerable");
    ("toString", native "toString");
    ("valueOf", native "valueOf");
    ("__proto__", "[object Object]");
    ("toLocaleString", native "toLocaleString") ].

(** What [o[k]] evaluates to, for an object [o] that holds strings. *)
Inductive property : Type :=
| Undefined
| OwnString (s : string)
| Inherited (as_key : string).

Definition get (o : t string) (k : string) : property :=
  match own o k with
  | Some s => OwnString s
  | None =>
      match own Object_prototype k with
      | Some r => Inherited r
      | None => Undefined
      end
  end.

(** [!p] *)
Definition falsy (p : property) : bool :=
  match p with
  | Undefined => true
  | OwnString s => JsString.is_empty s
  | Inherited _ => false
  end.

(** The property key that [p] names in [result[p]]. *)
Definition to_key (p : property) : string :=
  match p with
  | Undefined => "undefined"
  | OwnString s => s
  | Inherited r => r
  end.

(** [vals.includes(x)] on an array of strings. *)
Definition includes (vals : list string) (x : string) : bool :=
  existsb (String.eqb x) vals.

End JsObject.

Import JsString JsObject.

(** ** Values and the alias table *)

(** A scalar leaf. [shortenKeys] never looks inside one; a number is kept as
    the 64-bit pattern of its IEEE-754 double. *)
Inductive Scalar : Type :=
| Str (s : string)
| Num (bits : Z)
| Boolean (b : bool).

(** What [JSON.parse] (or the XML parser) hands to [shortenKeys]. *)
#[warnings="-register-all"]
Inductive Value : Type :=
| Null
| Prim (s : Scalar)
| Sequence (items : list Value)
| Record (entries : JsObject.t Value).

(** [keyMap]: original key to alias. *)
Definition AliasTable : Type := JsObject.t string.

(** The text of the object literal [COMMON_KEY_MAPPINGS] (server.js 54-93);
    the key ['subject'] is written twice. *)
Definition COMMON_KEY_MAPPINGS_text : list (string * string) :=
  [ ("LicenseValidator", "lv");
    ("LicenseType", "lt");
    ("CopilotUnlimited", "cu");
    ("ModelName", "mn");
    ("SubTag", "st");
    ("LoopCount", "lc");
    ("RaiPolicyId", "rpi");
    ("llmLicenseType", "llt");
    ("feature", "ft");
    ("role", "r");
    ("content", "c");
    ("system", "sys");
    ("user", "u");
    ("assistant", "a");
    ("developer", "dev");
    ("tool_calls", "tc");
    ("function", "fn");
    ("arguments", "arg");
    ("name", "n");
    ("type", "t");
    ("reference_id", "rid");
    ("snippet", "snp");
    ("subject", "sbj");
    ("from", "f");
    ("to", "t");
    ("participants", "p");
    ("Name", "n");
    ("Address", "a");
    ("Email", "e");
    ("subject", "s");
    ("message", "m");
    ("timestamp", "ts");
    ("dateTimeReceived", "dtr");
    ("dateTimeSent", "dts");
    ("isRead", "rd") ].

Definition COMMON_KEY_MAPPINGS : AliasTable :=
  Eval cbv in JsObject.literal COMMON_KEY_MAPPINGS_text.

(** ** shortenKeys (server.js 95-132) *)

(** Lines 97-99: an empty table is filled with the common mappings. *)
Definition initialize (keyMap : AliasTable) : AliasTable :=
  if (List.length (Object_keys keyMap) =? 0)%nat
  then Object_assign keyMap COMMON_KEY_MAPPINGS
  else keyMap.

(** Lines 110-115: the short form of a key before collisions are handled. *)
Definition short_of (key : string) : string :=
  let short := toLowerCase (substring 0 3 (remove_vowels key)) in
  if is_empty short then toLowerCase (substring 0 2 key) else short.

(** Lines 120-123: the [while] loop, entered with the current [candidate]
    and [counter]. *)
Fixpoint collision_loop (fuel : nat) (keyMap : AliasTable) (short candidate : string)
  (counter : nat) : option string :=
  match fuel with
  | 0 => None
  | S fuel' =>
      if includes (Object_values keyMap) candidate
      then collision_loop fuel' keyMap short (short ++ decimal counter) (S counter)
      else Some candidate
  end.

(** Lines 108-126: the block that gives [key] an alias when [keyMap[key]]
    is falsy. *)
Definition assign_alias (fuel : nat) (keyMap : AliasTable) (key : string)
  : option AliasTable :=
  if falsy (get keyMap key) then
    let short := short_of key in
    match collision_loop fuel keyMap short short 1 with
    | Some candidate => Some (JsObject.set keyMap key candidate)
    | None => None
    end
  else Some keyMap.

(** [obj.map(item => f(item, keyMap))] with the table threaded through. *)
Definition map_items (f : Value -> AliasTable -> option (Value * AliasTable))
  : list Value -> AliasTable -> option (list Value * AliasTable) :=
  fix go (items : list Value) (keyMap : AliasTable) :=
    match items with
    | [] => Some ([], keyMap)
    | item :: rest =>
        match f item keyMap with
        | Some (item', keyMap1) =>
            match go rest keyMap1 with
            | Some (rest', keyMap2) => Some (item' :: rest', keyMap2)
            | None => None
            end
        | None => None
        end
    end.

(** The [for (const [key, value] of Object.entries(obj))] loop, lines
    106-128. In [result[keyMap[key]] = f(value, keyMap)] the property name
    [keyMap[key]] is read before the recursive call runs. *)
Definition for_entries (fuel : nat)
  (f : Value -> AliasTable -> option (Value * AliasTable))
  : list (string * Value) -> JsObject.t Value -> AliasTable
    -> option (JsObject.t Value * AliasTable) :=
  fix go (entries : list (string * Value)) (result : JsObject.t Value)
         (keyMap : AliasTable) :=
    match entries with
    | [] => Some (result, keyMap)
    | (key, value) :: rest =>
        match assign_alias fuel keyMap key with
        | Some keyMap1 =>
            let name := to_key (get keyMap1 key) in
            match f value keyMap1 with
            | Some (value', keyMap2) => go rest (JsObject.set result name value') keyMap2
            | None => None
            end
        | None => None
        end
    end.

(** [shortenKeys(obj, keyMap)]: the new value and the table as the call
    leaves it. [fuel] bounds the iterations of each [while] loop. *)
Fixpoint shortenKeys (fuel : nat) (obj : Value) (keyMap : AliasTable)
  : option (Value * AliasTable) :=
  let keyMap := initialize keyMap in
  match obj with
  | Sequence items =>
      match map_items (shortenKeys fuel) items keyMap with
      | Some (items', keyMap') => Some (Sequence items', keyMap')
      | None => None
      end
  | Record entries =>
      match for_entries fuel (shortenKeys fuel) (Object_entries entries) [] keyMap with
      | Some (result, keyMap') => Some (Record result, keyMap')
      | None => None
      end
  | _ => Some (obj, keyMap)
  end.

(** [shortenKeys(obj)]: the default argument is a fresh empty object. *)
Definition shortenKeys_default (fuel : nat) (obj : Value) : option (Value * AliasTable) :=
  shortenKeys fuel obj [].

(** ** The traversal with a log

    [traverse_log] is the body of [shortenKeys] below line 99 (the table is
    taken as it is), and it also records, for every Record entry in the
    order of the walk, the key, the property name written to [result] and
    whether the block of lines 108-126 ran for it. *)

Record Event : Type := mkEvent {
  ev_key : string;
  ev_alias : string;
  ev_derived : bool
}.

Definition Log : Type := list Event.

Definition map_items_log (f : Value -> AliasTable -> option (Value * AliasTable * Log))
  : list Value -> AliasTable -> option (list Value * AliasTable * Log) :=
  fix go (items : list Value) (keyMap : AliasTable) :=
    match items with
    | [] => Some ([], keyMap, [])
    | item :: rest =>
        match f item keyMap with
        | Some (item', keyMap1, log1) =>
            match go rest keyMap1 with
            | Some (rest', keyMap2, log2) =>
                Some (item' :: rest', keyMap2, (log1 ++ log2)%list)
            | None => None
            end
        | None => None
        end
    end.

Definition for_entries_log (fuel : nat)
  (f : Value -> AliasTable -> option (Value * AliasTable * Log))
  : list (string * Value) -> JsObject.t Value -> AliasTable
    -> option (JsObject.t Value * AliasTable * Log) :=
  fix go (entries : list (string * Value)) (result : JsObject.t Value)
         (keyMap : AliasTable) :=
    match entries with
    | [] => Some (result, keyMap, [])
    | (key, value) :: rest =>
        match assign_alias fuel keyMap key with
        | Some keyMap1 =>
            let name := to_key (get keyMap1 key) in
            let event := mkEvent key name (falsy (get keyMap key)) in
            match f value keyMap1 with
            | Some (value', keyMap2, log1) =>
                match go rest (JsObject.set result name value') keyMap2 with
                | Some (result', keyMap3, log2) =>
                    Some (result', keyMap3, (event :: log1 ++ log2)%list)
                | None => None
                end
            | None => None
            end
        | None => None
        end
    end.

Fixpoint traverse_log (fuel : nat) (obj : Value) (keyMap : AliasTable)
  : option (Value * AliasTable * Log) :=
  match obj with
  | Sequence items =>
      match map_items_log (traverse_log fuel) items keyMap with
      | Some (items', keyMap', log) => Some (Sequence items', keyMap', log)
      | None => None
      end
  | Record entries =>
      match for_entries_log fuel (traverse_log fuel) (Object_entries entries) [] keyMap with
      | Some (result, keyMap', log) => Some (Record result, keyMap', log)
      | None => None
      end
  | _ => Some (obj, keyMap, [])
  end.

(** The traversal alone, and [shortenKeys] with its log. *)
Definition traverse (fuel : nat) (obj : Value) (keyMap : AliasTable)
  : option (Value * AliasTable) :=
  option_map fst (traverse_log fuel obj keyMap).

Definition shortenKeys_log (fuel : nat) (obj : Value) (keyMap : AliasTable)
  : option (Value * AliasTable * Log) :=
  traverse_log fuel obj (initialize keyMap).

(** The number of Record entries in a value. *)
Fixpoint count_keys (v : Value) : nat :=
  match v with
  | Sequence items => fold_right (fun item n => count_keys item + n) 0 items
  | Record entries => fold_right (fun kv n => S (count_keys (snd kv) + n)) 0 entries
  | _ => 0
  end.

(** ** shortenKeys on a heap

    The same function with the objects of the program laid out in a store,
    to speak about what a call writes. Arrays and plain objects are cells of
    the heap and values refer to them by location; the alias table holds
    strings only and stays the separate object of the model above. A call
    takes a stack frame: [depth] bounds the nesting of calls, and a call
    that would exceed it yields [None]. *)

Definition loc : Type := nat.

Inductive JsValue : Type :=
| JNull
| JPrim (s : Scalar)
| JRef (l : loc).

Inductive Cell : Type :=
| ArrayCell (items : list JsValue)
| ObjectCell (props : JsObject.t JsValue).

Definition Heap : Type := list Cell.

(** A new cell, at the first free location. *)
Definition alloc (h : Heap) (c : Cell) : loc * Heap :=
  (List.length h, (h ++ [c])%list).

(** Overwrite the cell at [l]. *)
Fixpoint write (h : Heap) (l : loc) (c : Cell) : Heap :=
  match h, l with
  | [], _ => []
  | _ :: r, 0 => c :: r
  | x :: r, S l' => x :: write r l' c
  end.

(** The element stored next into the array under construction at [dst]. *)
Definition push (h : Heap) (dst : loc) (v : JsValue) : Heap :=
  match nth_error h dst with
  | Some (ArrayCell items) => write h dst (ArrayCell (items ++ [v])%list)
  | _ => h
  end.

(** [result[name] = v] for the object at [result]. *)
Definition set_prop (h : Heap) (result : loc) (name : string) (v : JsValue) : Heap :=
  match nth_error h result with
  | Some (ObjectCell props) => write h result (ObjectCell (JsObject.set props name v))
  | _ => h
  end.

(** [obj.map(...)]: the new array is at [dst]; the elements of the array at
    [src] are read one index at a time, from the heap as it is then. *)
Definition map_heap
  (f : Heap -> JsValue -> AliasTable -> option (JsValue * Heap * AliasTable))
  (src dst : loc) : nat -> nat -> Heap -> AliasTable -> option (Heap * AliasTable) :=
  fix go (k remaining : nat) (h : Heap) (keyMap : AliasTable) :=
    match remaining with
    | 0 => Some (h, keyMap)
    | S remaining' =>
        match nth_error h src with
        | Some (ArrayCell items) =>
            match nth_error items k with
            | Some item =>
                match f h item keyMap with
                | Some (item', h1, keyMap1) =>
                    go (S k) remaining' (push h1 dst item') keyMap1
                | None => None
                end
            | None => go (S k) remaining' h keyMap
            end
        | _ => None
        end
    end.

(** The loop of lines 106-128 over the entries taken at its start, writing
    to the object at [result]. *)
Definition for_entries_heap (fuel : nat)
  (f : Heap -> JsValue -> AliasTable -> option (JsValue * Heap * AliasTable))
  (result : loc)
  : list (string * JsValue) -> Heap -> AliasTable -> option (Heap * AliasTable) :=
  fix go (entries : list (string * JsValue)) (h : Heap) (keyMap : AliasTable) :=
    match entries with
    | [] => Some (h, keyMap)
    | (key, value) :: rest =>
        match assign_alias fuel keyMap key with
        | Some keyMap1 =>
            let name := to_key (get keyMap1 key) in
            match f h value keyMap1 with
            | Some (value', h1, keyMap2) =>
                go rest (set_prop h1 result name value') keyMap2
            | None => None
            end
        | None => None
        end
    end.

Fixpoint shortenKeys_heap (depth fuel : nat) (h : Heap) (obj : JsValue)
  (keyMap : AliasTable) : option (JsValue * Heap * AliasTable) :=
  match depth with
  | 0 => None
  | S depth' =>
      let keyMap := initialize keyMap in
      match obj with
      | JRef l =>
          match nth_error h l with
          | Some (ArrayCell items) =>
              let (dst, h0) := alloc h (ArrayCell []) in
              match map_heap (shortenKeys_heap depth' fuel) l dst
                             0 (List.length items) h0 keyMap with
              | Some (h', keyMap') => Some (JRef dst, h', keyMap')
              | None => None
              end
          | Some (ObjectCell props) =>
              let (result, h0) := alloc h (ObjectCell []) in
              match for_entries_heap fuel (shortenKeys_heap depth' fuel) result
                                     (Object_entries props) h0 keyMap with
              | Some (h', keyMap') => Some (JRef result, h', keyMap')
              | None => None
              end
          | None => None
          end
      | _ => Some (obj, h, keyMap)
      end
  end.

(** [h'] is [h] with every cell of [h] as it was, and new cells after. *)
Definition extends (h h' : Heap) : Prop := exists fresh, h' = (h ++ fresh)%list.

(** The value [v] in the heap [h] is the tree [V], and every cell it
    reaches is at a location in [P]. *)
#[warnings="-register-all"]
Inductive rep (P : loc -> Prop) (h : Heap) : JsValue -> Value -> Prop :=
| rep_null : rep P h JNull Null
| rep_prim s : rep P h (JPrim s) (Prim s)
| rep_array l items Vs :
    P l -> nth_error h l = Some (ArrayCell items) ->
    Forall2 (rep P h) items Vs ->
    rep P h (JRef l) (Sequence Vs)
| rep_object l props entries :
    P l -> nth_error h l = Some (ObjectCell props) ->
    Forall2 (fun p e => fst p = fst e /\ rep P h (snd p) (snd e)) props entries ->
    rep P h (JRef l) (Record entries).

(** The nesting of a value: the calls that [shortenKeys] stacks on it. *)
Fixpoint height (v : Value) : nat :=
  match v with
  | Sequence items => S (fold_right (fun item n => Nat.max (height item) n) 0 items)
  | Record entries => S (fold_right (fun kv n => Nat.max (height (snd kv)) n) 0 entries)
  | _ => 1
  end.

(** ** Notions used by the properties *)

(** The trial aliases in the order the loop tests them: [short], then
    [short + 1], [short + 2], ... *)
Definition trial (short : string) (i : nat) : string :=
  match i with
  | 0 => short
  | S _ => short ++ decimal i
  end.

(** An event for key [k] that reuses the alias [a]. *)
Definition renders (k a : string) (e : Event) : Prop :=
  ev_key e = k -> ev_alias e = a /\ ev_derived e = false.

(** Fuel that is always enough for [shortenKeys(obj, keyMap)]. *)
Definition enough_fuel (obj : Value) (keyMap : AliasTable) : nat :=
  S (List.length (initialize keyMap) + count_keys obj).

(** [f] keeps the table property [Inv] and logs only [Good] events. *)
Definition keeps (Inv : AliasTable -> Prop) (Good : Event -> Prop)
  (f : Value -> AliasTable -> option (Value * AliasTable * Log)) (v : Value) : Prop :=
  forall keyMap out keyMap' log,
    Inv keyMap -> f v keyMap = Some (out, keyMap', log) ->
    Inv keyMap' /\ Forall Good log.

(** The shape of a value: the value itself with every Record key blanked,
    so that two values have the same shape when they differ in Record keys
    only. *)
Fixpoint shape (v : Value) : Value :=
  match v with
  | Sequence items => Sequence (map shape items)
  | Record entries => Record (map (fun kv => ("", shape (snd kv))) entries)
  | _ => v
  end.

(** The Record keys of a value, in the order of the walk. *)
Fixpoint record_keys (v : Value) : list string :=
  match v with
  | Sequence items => flat_map record_keys items
  | Record entries => flat_map (fun kv => fst kv :: record_keys (snd kv)) entries
  | _ => []
  end.

(** Reading the table backwards: the original keys whose alias is [alias]. *)
Definition originals (keyMap : AliasTable) (alias : string) : list string :=
  map fst (filter (fun kv => String.eqb (snd kv) alias) keyMap).

(** The inputs of the scenarios. *)
Definition license_record : Value :=
  Record [("LicenseValidator", Prim (Str "Started")); ("ModelName", Prim (Str "prod"))].

Definition type_to_record : Value :=
  Record [("type", Prim (Str "email")); ("to", Prim (Str "bob"))].

Definition empty_key_records : Value :=
  Sequence [Record [("", Prim (Str "x"))]; Record [("", Prim (Str "y"))]].

Definition constructor_record : Value :=
  Record [("constructor", Prim (Str "x"))].

(** A heap that holds the tree [{ModelName: ["gpt", null]}] at location 0. *)
Definition example_heap : Heap :=
  [ObjectCell [("ModelName", JRef 1)]; ArrayCell [JPrim (Str "gpt"); JNull]].

Definition example_tree : Value :=
  Record [("ModelName", Sequence [Prim (Str "gpt"); Null])].

(** Two objects with the same keys in the same order and values related
    by [T]. *)
Definition related {A B : Type} (T : A -> B -> Prop)
  (o1 : JsObject.t A) (o2 : JsObject.t B) : Prop :=
  Forall2 (fun p e => fst p = fst e /\ T (snd p) (snd e)) o1 o2.

(** What the agreement says of one value [V]. *)
Definition refines_at (fuel : nat) (V : Value) : Prop :=
  forall depth h v keyMap out' keyMap',
    rep (fun l => l < List.length h) h v V ->
    shortenKeys fuel V keyMap = Some (out', keyMap') ->
    height V <= depth ->
    exists out h',
      shortenKeys_heap depth fuel h v keyMap = Some (out, h', keyMap') /\
      extends h h' /\
      rep (fun l => List.length h <= l < List.length h') h' out out'.

(** ** Induction over values *)

Section Value_induction.

Variable P : Value -> Prop.
Hypothesis P_Null : P Null.
Hypothesis P_Prim : forall s, P (Prim s).
Hypothesis P_Sequence : forall items, Forall P items -> P (Sequence items).
Hypothesis P_Record :
  forall entries, Forall (fun kv => P (snd kv)) entries -> P (Record entries).

Fixpoint Value_induction (v : Value) : P v :=
  match v with
  | Null => P_Null
  | Prim s => P_Prim s
  | Sequence items =>
      P_Sequence items
        ((fix all (l : list Value) : Forall P l :=
            match l with
            | [] => Forall_nil _
            | x :: r => Forall_cons x (Value_induction x) (all r)
            end) items)
  | Record entries =>
      P_Record entries
        ((fix all (l : list (string * Value)) : Forall (fun kv => P (snd kv)) l :=
            match l with
            | [] => Forall_nil _
            | kv :: r => Forall_cons kv (Value_induction (snd kv)) (all r)
            end) entries)
  end.

End Value_induction.

(** What the walk keeps of a value whatever the aliases are: the
    constructors, the Sequences element by element, the scalar leaves; and
    every entry of an output Record is the image of an entry of the input
    Record, of which there are at least as many. *)
#[warnings="-register-all"]
Inductive reshaped : Value -> Value -> Prop :=
| reshaped_null : reshaped Null Null
| reshaped_prim s : reshaped (Prim s) (Prim s)
| reshaped_sequence items items' :
    Forall2 reshaped items items' ->
    reshaped (Sequence items) (Sequence items')
| reshaped_record entries entries' :
    List.length entries' <= List.length entries ->
    Forall (fun v' => Exists (fun e => reshaped (snd e) v') entries)
           (Object_values entries') ->
    reshaped (Record entries) (Record entries').

(** ** removeNullsAndEmpty (server.js 35-51) *)

(** [v !== null && v !== undefined], the filter of line 37; a parsed value
    is never [undefined]. *)
Definition not_null (v : Value) : bool :=
  match v with
  | Null => false
  | _ => true
  end.

(** The condition of lines 42-44 on the value of an entry: not [null], not
    the empty string, not an empty array, and not an object without keys
    (an array is an object whose keys are its indices). *)
Definition kept (value : Value) : bool :=
  not_null value
  && negb (match value with Prim (Str s) => is_empty s | _ => false end)
  && negb (match value with
           | Sequence items => (List.length items =? 0)%nat
           | _ => false
           end)
  && negb (match value with
           | Sequence items => (List.length items =? 0)%nat
           | Record entries => (List.length (Object_keys entries) =? 0)%nat
           | _ => false
           end).

(** The loop of lines 41-47, with the call of line 45 as [f]. *)
Definition keep_entries (f : Value -> Value)
  : list (string * Value) -> JsObject.t Value -> JsObject.t Value :=
  fix go (entries : list (string * Value)) (result : JsObject.t Value) :=
    match entries with
    | [] => result
    | (key, value) :: rest =>
        if kept value
        then go rest (JsObject.set result key (f value))
        else go rest result
    end.

Fixpoint removeNullsAndEmpty (obj : Value) : Value :=
  match obj with
  | Sequence items => Sequence (filter not_null (map removeNullsAndEmpty items))
  | Record entries =>
      Record (keep_entries removeNullsAndEmpty (Object_entries entries) [])
  | _ => obj
  end.

(** Lines 181 and 203-204 of the [/convert] handler: the value that level 4
    serializes and the key map of the response, from the parsed [data]. *)
Definition short_keys_level (fuel : nat) (data : Value) : option (Value * AliasTable) :=
  let dataNoNulls := removeNullsAndEmpty data in
  let keyMap : AliasTable := [] in
  shortenKeys fuel dataNoNulls keyMap.

(** No [null] below the root of a value. *)
Fixpoint null_free (v : Value) : bool :=
  match v with
  | Sequence items => forallb (fun item => not_null item && null_free item) items
  | Record entries =>
      forallb (fun kv => not_null (snd kv) && null_free (snd kv)) entries
  | _ => true
  end.

(** No entry of a Record, at any depth, is the empty string. *)
Fixpoint no_empty_string_entry (v : Value) : bool :=
  match v with
  | Sequence items => forallb no_empty_string_entry items
  | Record entries =>
      forallb (fun kv =>
                 negb (match snd kv with Prim (Str s) => is_empty s | _ => false end)
                 && no_empty_string_entry (snd kv)) entries
  | _ => true
  end.

(** A key that can come next when an object enumerates its keys, the keys
    [before] being those already listed: it is new, it is not [__proto__]
    (which an assignment does not create), and if it is an array index the
    keys before it are all smaller array indices. *)
Definition key_fits (before : list string) (k : string) : bool :=
  negb (existsb (String.eqb k) before)
  && negb (String.eqb k "__proto__")
  && match array_index k with
     | Some n =>
         forallb (fun k' => match array_index k' with
                            | Some n' => (n' <? n)%N
                            | None => false
                            end) before
     | None => true
     end.

(** [ks] continue the enumeration [before] of an object's keys. *)
Fixpoint enumerates (before ks : list string) : bool :=
  match ks with
  | [] => true
  | k :: rest => key_fits before k && enumerates (before ++ [k]) rest
  end.

(** Every Record of the value lists its entries as a JavaScript object
    built by assignments enumerates them. *)
Fixpoint well_formed (v : Value) : bool :=
  match v with
  | Sequence items => forallb well_formed items
  | Record entries =>
      enumerates [] (Object_keys entries)
      && forallb (fun kv => well_formed (snd kv)) entries
  | _ => true
  end.

(** Nothing for [removeNullsAndEmpty] to remove: no [null] in a Sequence, and
    no Record entry that fails the test of lines 42-44. *)
Fixpoint clean (v : Value) : bool :=
  match v with
  | Sequence items => forallb (fun item => not_null item && clean item) items
  | Record entries => forallb (fun kv => kept (snd kv) && clean (snd kv)) entries
  | _ => true
  end.

Definition clean_example : Value :=
  Record [("7", Prim (Num 1)); ("10", Sequence [Prim (Str "")]);
          ("role", Prim (Str "user")); ("tags", Sequence [Record [("k", Prim (Boolean false))]])].

(** Every character of [s] passes [p]. *)
Fixpoint all_chars (p : ascii -> bool) (s : string) : bool :=
  match s with
  | EmptyString => true
  | String c r => p c && all_chars p r
  end.

(** Every lookup that is truthy in [t] gives the same in [t']. *)
Definition settled_in (t t' : AliasTable) : Prop :=
  forall k p, falsy p = false -> get t k = p -> get t' k = p.

(** A heap in which two entries of one object share an array. *)
Definition shared_heap : Heap :=
  [ObjectCell [("first", JRef 1); ("second", JRef 1)]; ArrayCell [JPrim (Str "x")]].

(** * Properties *)

(** ** Facts about objects *)

Section Object_facts.

Context {A : Type}.
Implicit Types (o : JsObject.t A) (k : string) (v : A).

Lemma own_update o k v k' :
  own (update o k v) k' =
  if String.eqb k k' then option_map (fun _ => v) (own o k) else own o k'.
Proof.
  induction o as [|[k0 v0] r IH]; simpl.
  - now destruct (String.eqb k k').
  - destruct (String.eqb k0 k) eqn:E0; simpl.
    + apply String.eqb_eq in E0; subst k0.
      destruct (String.eqb k k') eqn:E; simpl; reflexivity.
    + rewrite IH. destruct (String.eqb k k') eqn:E.
      * apply String.eqb_eq in E; subst k'. now rewrite E0.
      * reflexivity.
Qed.

Lemma own_add_index_other o n k v k' :
  k <> k' -> own (add_index o n k v) k' = own o k'.
Proof.
  intros Hne. induction o as [|[k0 v0] r IH]; simpl.
  - apply String.eqb_neq in Hne. now rewrite Hne.
  - apply String.eqb_neq in Hne.
    destruct (array_index k0) as [n'|]; [destruct (n <? n')%N|]; simpl;
      rewrite ?Hne, ?IH; reflexivity.
Qed.

Lemma own_add_index_same o n k v :
  own o k = None -> own (add_index o n k v) k = Some v.
Proof.
  induction o as [|[k0 v0] r IH]; simpl; intros Hown.
  - now rewrite String.eqb_refl.
  - destruct (String.eqb k0 k) eqn:E0; [discriminate|].
    destruct (array_index k0) as [n'|]; [destruct (n <? n')%N|]; simpl;
      rewrite ?String.eqb_refl, ?E0; auto.
Qed.

Lemma own_app o1 o2 k :
  own (o1 ++ o2)%list k = match own o1 k with Some x => Some x | None => own o2 k end.
Proof.
  induction o1 as [|[k0 v0] r IH]; simpl; [reflexivity|].
  now destruct (String.eqb k0 k).
Qed.

Lemma own_add_other o k v k' : k <> k' -> own (add o k v) k' = own o k'.
Proof.
  intros Hne. unfold add. destruct (array_index k).
  - now apply own_add_index_other.
  - rewrite own_app. simpl. apply String.eqb_neq in Hne. rewrite Hne.
    now destruct (own o k').
Qed.

Lemma own_add_same o k v : own o k = None -> own (add o k v) k = Some v.
Proof.
  intros Hown. unfold add. destruct (array_index k).
  - now apply own_add_index_same.
  - rewrite own_app, Hown. simpl. now rewrite String.eqb_refl.
Qed.

Lemma own_set_other o k v k' : k <> k' -> own (JsObject.set o k v) k' = own o k'.
Proof.
  intros Hne. unfold JsObject.set. destruct (own o k).
  - rewrite own_update. apply String.eqb_neq in Hne. now rewrite Hne.
  - destruct (String.eqb k "__proto__"); [reflexivity|now apply own_add_other].
Qed.

Lemma own_set_same o k v :
  own o k <> None \/ k <> "__proto__" -> own (JsObject.set o k v) k = Some v.
Proof.
  intros H. unfold JsObject.set. destruct (own o k) eqn:Hown.
  - rewrite own_update, String.eqb_refl, Hown. reflexivity.
  - destruct H as [H|H]; [congruence|].
    apply String.eqb_neq in H. rewrite H. now apply own_add_same.
Qed.

Lemma length_update o k v : List.length (update o k v) = List.length o.
Proof.
  induction o as [|[k0 v0] r IH]; simpl; [reflexivity|].
  destruct (String.eqb k0 k); simpl; congruence.
Qed.

Lemma length_add_index o n k v : List.length (add_index o n k v) = S (List.length o).
Proof.
  induction o as [|[k0 v0] r IH]; simpl; [reflexivity|].
  destruct (array_index k0) as [n'|]; [destruct (n <? n')%N|]; simpl; congruence.
Qed.

Lemma length_add o k v : List.length (add o k v) = S (List.length o).
Proof.
  unfold add. destruct (array_index k).
  - apply length_add_index.
  - rewrite length_app. simpl. lia.
Qed.

Lemma length_set o k v :
  List.length o <= List.length (JsObject.set o k v) <= S (List.length o).
Proof.
  unfold JsObject.set. destruct (own o k).
  - rewrite length_update. lia.
  - destruct (String.eqb k "__proto__"); [lia|]. rewrite length_add. lia.
Qed.

Lemma set_not_empty o k v : o <> [] -> JsObject.set o k v <> [].
Proof.
  intros Ho Hs. pose proof (length_set o k v) as H. rewrite Hs in H.
  destruct o; [congruence|simpl in H; lia].
Qed.

Lemma values_update o k v x :
  In x (Object_values (update o k v)) -> x = v \/ In x (Object_values o).
Proof.
  induction o as [|[k0 v0] r IH]; simpl; [tauto|].
  destruct (String.eqb k0 k); simpl; intuition.
Qed.

Lemma values_add_index o n k v x :
  In x (Object_values (add_index o n k v)) <-> x = v \/ In x (Object_values o).
Proof.
  induction o as [|[k0 v0] r IH]; simpl; [intuition|].
  destruct (array_index k0) as [n'|]; [destruct (n <? n')%N|]; simpl; intuition.
Qed.

Lemma values_add o k v x :
  In x (Object_values (add o k v)) <-> x = v \/ In x (Object_values o).
Proof.
  unfold add. destruct (array_index k).
  - apply values_add_index.
  - unfold Object_values. rewrite map_app, in_app_iff. simpl. intuition.
Qed.

Lemma values_set o k v x :
  In x (Object_values (JsObject.set o k v)) -> x = v \/ In x (Object_values o).
Proof.
  unfold JsObject.set. destruct (own o k).
  - apply values_update.
  - destruct (String.eqb k "__proto__"); [tauto|]. apply values_add.
Qed.

End Object_facts.

Lemma includes_In vals x : includes vals x = true <-> In x vals.
Proof.
  unfold includes. rewrite existsb_exists. split.
  - intros [y [Hy E]]. apply String.eqb_eq in E. now subst.
  - intros H. exists x. split; [assumption|apply String.eqb_refl].
Qed.

Lemma includes_not_In vals x : includes vals x = false <-> ~ In x vals.
Proof.
  rewrite <- includes_In. destruct (includes vals x); split; congruence.
Qed.

(** ** The collision loop *)

Lemma decimal_inj n m : decimal n = decimal m -> n = m.
Proof.
  unfold decimal. intros H.
  apply (f_equal NilEmpty.uint_of_string) in H.
  rewrite !NilEmpty.usu in H. injection H as H.
  apply (f_equal Nat.of_uint) in H.
  now rewrite !Unsigned.of_to in H.
Qed.

Lemma decimal_not_empty n : decimal n <> "".
Proof.
  intros H. assert (E : decimal n = decimal 0 -> False).
  { intros E. apply decimal_inj in E. subst n. discriminate H. }
  apply E. unfold decimal in *.
  apply (f_equal NilEmpty.uint_of_string) in H.
  rewrite NilEmpty.usu in H. simpl in H. injection H as H.
  apply (f_equal Nat.of_uint) in H. rewrite Unsigned.of_to in H.
  simpl in H. now subst n.
Qed.

Lemma append_cancel_l (s a b : string) : s ++ a = s ++ b -> a = b.
Proof. induction s; simpl; intros H; [assumption|injection H as H; auto]. Qed.

Lemma append_empty_r (s a : string) : s = s ++ a -> a = "".
Proof. induction s; simpl; intros H; [now symmetry|injection H as H; auto]. Qed.


Lemma trial_inj short i j : trial short i = trial short j -> i = j.
Proof.
  destruct i, j; simpl; intros H; try reflexivity.
  - apply append_empty_r in H. now apply decimal_not_empty in H.
  - symmetry in H. apply append_empty_r in H. now apply decimal_not_empty in H.
  - apply append_cancel_l in H. now apply decimal_inj in H.
Qed.

Lemma trials_bounded short (vals : list string) i :
  (forall j, j < i -> In (trial short j) vals) -> i <= List.length vals.
Proof.
  intros H.
  rewrite <- (length_seq i 0), <- (length_map (trial short)).
  apply NoDup_incl_length.
  - apply Finite.Injective_map_NoDup; [|apply seq_NoDup].
    intros x y. apply trial_inj.
  - intros x Hx. apply in_map_iff in Hx as [j [<- Hj]].
    apply in_seq in Hj. apply H. lia.
Qed.

(** Once the trials before [i] are all taken, the loop entered at trial [i]
    stops at the first trial that is not a value of the table, provided the
    fuel exceeds the number of values still untested. *)
Lemma collision_loop_from keyMap short fuel :
  forall i,
    (forall j, j < i -> In (trial short j) (Object_values keyMap)) ->
    List.length keyMap < fuel + i ->
    exists n,
      i <= n /\
      collision_loop fuel keyMap short (trial short i) (S i) = Some (trial short n) /\
      ~ In (trial short n) (Object_values keyMap) /\
      (forall j, j < n -> In (trial short j) (Object_values keyMap)).
Proof.
  induction fuel as [|fuel IH]; intros i Hbelow Hfuel.
  - apply trials_bounded in Hbelow. unfold Object_values in Hbelow.
    rewrite length_map in Hbelow. lia.
  - simpl. destruct (includes (Object_values keyMap) (trial short i)) eqn:Hin.
    + apply includes_In in Hin.
      destruct (IH (S i)) as [n [Hle [Hrun [Hfresh Hmin]]]].
      * intros j Hj. destruct (Nat.eq_dec j i) as [->|Hne]; [assumption|].
        apply Hbelow. lia.
      * lia.
      * exists n. repeat split; try assumption. lia.
    + apply includes_not_In in Hin. exists i. repeat split; auto.
Qed.

Lemma collision_loop_total keyMap short fuel :
  List.length keyMap < fuel ->
  exists n,
    collision_loop fuel keyMap short short 1 = Some (trial short n) /\
    ~ In (trial short n) (Object_values keyMap) /\
    (forall j, j < n -> In (trial short j) (Object_values keyMap)).
Proof.
  intros Hfuel.
  destruct (collision_loop_from keyMap short fuel 0) as [n [_ H]].
  - intros j Hj. lia.
  - lia.
  - exists n. exact H.
Qed.

Lemma collision_loop_mono keyMap short fuel fuel' :
  fuel <= fuel' ->
  forall candidate counter c,
    collision_loop fuel keyMap short candidate counter = Some c ->
    collision_loop fuel' keyMap short candidate counter = Some c.
Proof.
  revert fuel'. induction fuel as [|fuel IH]; intros fuel' Hle candidate counter c H.
  - discriminate.
  - destruct fuel' as [|fuel']; [lia|]. simpl in *.
    destruct (includes (Object_values keyMap) candidate); [|assumption].
    apply IH; [lia|assumption].
Qed.

(** ** The alias block, lines 108-126 *)

Lemma assign_alias_kept fuel keyMap key :
  falsy (get keyMap key) = false -> assign_alias fuel keyMap key = Some keyMap.
Proof. unfold assign_alias. now intros ->. Qed.

(** The derivation of lines 110-125: the short form of the key, then the
    first of [short], [short + 1], [short + 2], ... that is not yet a value
    of the table, which is written to the table under the key. *)
Lemma assign_alias_derived fuel keyMap key :
  falsy (get keyMap key) = true ->
  List.length keyMap < fuel ->
  exists n,
    assign_alias fuel keyMap key
      = Some (JsObject.set keyMap key (trial (short_of key) n)) /\
    ~ In (trial (short_of key) n) (Object_values keyMap) /\
    (forall j, j < n -> In (trial (short_of key) j) (Object_values keyMap)).
Proof.
  intros Hfalsy Hfuel. unfold assign_alias. rewrite Hfalsy.
  destruct (collision_loop_total keyMap (short_of key) fuel Hfuel)
    as [n [Hrun [Hfresh Hmin]]].
  exists n. rewrite Hrun. auto.
Qed.

Lemma assign_alias_mono fuel fuel' keyMap key keyMap' :
  fuel <= fuel' ->
  assign_alias fuel keyMap key = Some keyMap' ->
  assign_alias fuel' keyMap key = Some keyMap'.
Proof.
  intros Hle. unfold assign_alias.
  destruct (falsy (get keyMap key)); [|trivial].
  destruct (collision_loop fuel keyMap _ _ 1) eqn:Hrun; [|discriminate].
  now rewrite (collision_loop_mono _ _ _ _ Hle _ _ _ Hrun).
Qed.

Lemma assign_alias_length fuel keyMap key keyMap' :
  assign_alias fuel keyMap key = Some keyMap' ->
  List.length keyMap <= List.length keyMap' <= S (List.length keyMap).
Proof.
  unfold assign_alias. destruct (falsy (get keyMap key)).
  - destruct (collision_loop fuel keyMap _ _ 1); [|discriminate].
    intros [= <-]. apply length_set.
  - intros [= <-]. lia.
Qed.

Lemma assign_alias_total fuel keyMap key :
  List.length keyMap < fuel -> exists keyMap', assign_alias fuel keyMap key = Some keyMap'.
Proof.
  intros Hfuel. destruct (falsy (get keyMap key)) eqn:Hfalsy.
  - destruct (assign_alias_derived fuel keyMap key Hfalsy Hfuel) as [n [H _]]. eauto.
  - rewrite assign_alias_kept by assumption. eauto.
Qed.

(** ** Invariants of the traversal

    A property of the table that the alias block preserves holds of the
    table at the end of the walk, and a property of the events the block
    produces from such tables holds of every event in the log. *)

Section Traversal_invariant.

Variable Inv : AliasTable -> Prop.
Variable Good : Event -> Prop.
Variable fuel : nat.

Hypothesis assign_alias_inv :
  forall keyMap key keyMap',
    Inv keyMap ->
    assign_alias fuel keyMap key = Some keyMap' ->
    Inv keyMap' /\ Good (mkEvent key (to_key (get keyMap' key)) (falsy (get keyMap key))).


Lemma map_items_log_inv f items :
  Forall (keeps Inv Good f) items ->
  forall keyMap out keyMap' log,
    Inv keyMap -> map_items_log f items keyMap = Some (out, keyMap', log) ->
    Inv keyMap' /\ Forall Good log.
Proof.
  induction 1 as [|item rest Hitem _ IH]; simpl; intros keyMap out keyMap' log HI Hrun.
  - injection Hrun as <- <- <-. auto.
  - destruct (f item keyMap) as [[[item' km1] log1]|] eqn:E1; [|discriminate].
    destruct (map_items_log f rest km1) as [[[rest' km2] log2]|] eqn:E2; [|discriminate].
    injection Hrun as <- <- <-.
    destruct (Hitem _ _ _ _ HI E1) as [HI1 HG1].
    destruct (IH _ _ _ _ HI1 E2) as [HI2 HG2].
    split; [assumption|]. apply Forall_app. auto.
Qed.

Lemma for_entries_log_inv f entries :
  Forall (fun kv => keeps Inv Good f (snd kv)) entries ->
  forall result keyMap out keyMap' log,
    Inv keyMap ->
    for_entries_log fuel f entries result keyMap = Some (out, keyMap', log) ->
    Inv keyMap' /\ Forall Good log.
Proof.
  induction 1 as [|[key value] rest Hvalue _ IH]; simpl;
    intros result keyMap out keyMap' log HI Hrun.
  - injection Hrun as <- <- <-. auto.
  - destruct (assign_alias fuel keyMap key) as [km1|] eqn:E0; [|discriminate].
    destruct (f value km1) as [[[value' km2] log1]|] eqn:E1; [|discriminate].
    destruct (for_entries_log fuel f rest _ km2) as [[[result' km3] log2]|] eqn:E2;
      [|discriminate].
    injection Hrun as <- <- <-.
    destruct (assign_alias_inv _ _ _ HI E0) as [HI0 HG0].
    destruct (Hvalue _ _ _ _ HI0 E1) as [HI1 HG1].
    destruct (IH _ _ _ _ _ HI1 E2) as [HI2 HG2].
    split; [assumption|]. constructor; [assumption|]. apply Forall_app. auto.
Qed.

Theorem traverse_log_inv v : keeps Inv Good (traverse_log fuel) v.
Proof.
  induction v as [| s | items IH | entries IH] using Value_induction;
    unfold keeps; simpl; intros keyMap out keyMap' log HI Hrun.
  - injection Hrun as <- <- <-. auto.
  - injection Hrun as <- <- <-. auto.
  - destruct (map_items_log _ items keyMap) as [[[items' km] lg]|] eqn:E; [|discriminate].
    injection Hrun as <- <- <-. eapply map_items_log_inv; eauto.
  - destruct (for_entries_log fuel _ _ [] keyMap) as [[[res km] lg]|] eqn:E; [|discriminate].
    injection Hrun as <- <- <-. eapply for_entries_log_inv; eauto.
Qed.

End Traversal_invariant.

(** A table that is not empty stays so. *)
Lemma assign_alias_not_empty fuel keyMap key keyMap' :
  keyMap <> [] -> assign_alias fuel keyMap key = Some keyMap' -> keyMap' <> [].
Proof.
  intros Hne H. apply assign_alias_length in H.
  destruct keyMap; [congruence|]. destruct keyMap'; [simpl in H; lia|discriminate].
Qed.

Lemma traverse_log_not_empty fuel v keyMap out keyMap' log :
  keyMap <> [] -> traverse_log fuel v keyMap = Some (out, keyMap', log) -> keyMap' <> [].
Proof.
  intros Hne Hrun.
  apply (traverse_log_inv (fun t => t <> []) (fun _ => True) fuel) in Hrun; try tauto.
  intros km key km' H1 H2. split; [|exact I]. eauto using assign_alias_not_empty.
Qed.

(** ** Initialization, lines 97-99 *)

Lemma initialize_empty : initialize [] = COMMON_KEY_MAPPINGS.
Proof. vm_compute. reflexivity. Qed.

Lemma initialize_not_empty keyMap : keyMap <> [] -> initialize keyMap = keyMap.
Proof. destruct keyMap; [congruence|reflexivity]. Qed.

Lemma initialize_result_not_empty keyMap : initialize keyMap <> [].
Proof.
  destruct keyMap; [rewrite initialize_empty|rewrite initialize_not_empty]; discriminate.
Qed.

Lemma initialize_idem keyMap : initialize (initialize keyMap) = initialize keyMap.
Proof. apply initialize_not_empty, initialize_result_not_empty. Qed.

Lemma COMMON_KEY_MAPPINGS_literal :
  COMMON_KEY_MAPPINGS = JsObject.literal COMMON_KEY_MAPPINGS_text.
Proof. vm_compute. reflexivity. Qed.

(** On a table that is not empty, [shortenKeys] is the traversal. *)
Lemma map_items_traverse fuel items :
  Forall (fun v => forall keyMap, keyMap <> [] ->
                   shortenKeys fuel v keyMap = traverse fuel v keyMap) items ->
  forall keyMap, keyMap <> [] ->
    map_items (shortenKeys fuel) items keyMap
    = option_map fst (map_items_log (traverse_log fuel) items keyMap).
Proof.
  induction 1 as [|item rest Hitem _ IH]; simpl; intros keyMap Hne; [reflexivity|].
  rewrite (Hitem _ Hne). unfold traverse.
  destruct (traverse_log fuel item keyMap) as [[[item' km1] log1]|] eqn:E1; simpl;
    [|reflexivity].
  rewrite IH by eauto using traverse_log_not_empty.
  destruct (map_items_log _ rest km1) as [[[rest' km2] log2]|]; reflexivity.
Qed.

Lemma for_entries_traverse fuel entries :
  Forall (fun kv => forall keyMap, keyMap <> [] ->
                    shortenKeys fuel (snd kv) keyMap = traverse fuel (snd kv) keyMap)
         entries ->
  forall result keyMap, keyMap <> [] ->
    for_entries fuel (shortenKeys fuel) entries result keyMap
    = option_map fst (for_entries_log fuel (traverse_log fuel) entries result keyMap).
Proof.
  induction 1 as [|[key value] rest Hvalue _ IH]; simpl; intros result keyMap Hne;
    [reflexivity|].
  destruct (assign_alias fuel keyMap key) as [km1|] eqn:E0; [|reflexivity].
  assert (Hne1 : km1 <> []) by eauto using assign_alias_not_empty.
  simpl in Hvalue. rewrite (Hvalue _ Hne1). unfold traverse.
  destruct (traverse_log fuel value km1) as [[[value' km2] log1]|] eqn:E1; simpl;
    [|reflexivity].
  rewrite IH by eauto using traverse_log_not_empty.
  destruct (for_entries_log fuel _ rest _ km2) as [[[result' km3] log2]|]; reflexivity.
Qed.

Lemma shortenKeys_traverse_not_empty fuel v :
  forall keyMap, keyMap <> [] -> shortenKeys fuel v keyMap = traverse fuel v keyMap.
Proof.
  induction v as [| s | items IH | entries IH] using Value_induction;
    intros keyMap Hne; unfold traverse; simpl; rewrite (initialize_not_empty _ Hne);
    try reflexivity.
  - rewrite (map_items_traverse _ _ IH _ Hne).
    destruct (map_items_log _ items keyMap) as [[[items' km] lg]|]; reflexivity.
  - unfold Object_entries. rewrite (for_entries_traverse _ _ IH _ _ Hne).
    destruct (for_entries_log fuel _ entries [] keyMap) as [[[res km] lg]|]; reflexivity.
Qed.

Lemma shortenKeys_initialize fuel v keyMap :
  shortenKeys fuel v keyMap = shortenKeys fuel v (initialize keyMap).
Proof. destruct v; simpl; now rewrite initialize_idem. Qed.

Lemma shortenKeys_traverse fuel v keyMap :
  shortenKeys fuel v keyMap = traverse fuel v (initialize keyMap).
Proof.
  rewrite shortenKeys_initialize.
  apply shortenKeys_traverse_not_empty, initialize_result_not_empty.
Qed.

Lemma shortenKeys_log_erase fuel v keyMap :
  option_map fst (shortenKeys_log fuel v keyMap) = shortenKeys fuel v keyMap.
Proof. symmetry. apply shortenKeys_traverse. Qed.

(** ** An alias that is not empty stays *)


Lemma assign_alias_keeps_entry fuel k a keyMap key keyMap' :
  a <> "" ->
  own keyMap k = Some a ->
  assign_alias fuel keyMap key = Some keyMap' ->
  own keyMap' k = Some a /\
  renders k a (mkEvent key (to_key (get keyMap' key)) (falsy (get keyMap key))).
Proof.
  intros Ha Hown Hrun. destruct (String.eqb_spec key k) as [->|Hne].
  - assert (Hfalsy : falsy (get keyMap k) = false).
    { unfold get. rewrite Hown. simpl. destruct a; [congruence|reflexivity]. }
    rewrite assign_alias_kept in Hrun by assumption. injection Hrun as <-.
    split; [assumption|]. intros _. simpl. split; [|assumption].
    unfold get. now rewrite Hown.
  - split; [|intros E; simpl in E; congruence].
    unfold assign_alias in Hrun. destruct (falsy (get keyMap key)).
    + destruct (collision_loop fuel keyMap _ _ 1); [|discriminate].
      injection Hrun as <-. now rewrite own_set_other.
    + now injection Hrun as <-.
Qed.

(** Whatever the walk meets, an entry of the table whose alias is not the
    empty string is still there at the end, every occurrence of its key is
    written under that alias, and the alias block never runs for it. *)
Lemma traverse_log_keeps_entry fuel v k a keyMap out keyMap' log :
  a <> "" ->
  own keyMap k = Some a ->
  traverse_log fuel v keyMap = Some (out, keyMap', log) ->
  own keyMap' k = Some a /\ Forall (renders k a) log.
Proof.
  intros Ha Hown Hrun.
  apply (traverse_log_inv (fun t => own t k = Some a) (renders k a) fuel) in Hrun;
    [assumption| |assumption].
  intros km key km'. now apply assign_alias_keeps_entry.
Qed.

Lemma COMMON_KEY_MAPPINGS_aliases_not_empty k a :
  own COMMON_KEY_MAPPINGS k = Some a -> a <> "".
Proof.
  assert (H : Forall (fun kv => snd kv <> "") COMMON_KEY_MAPPINGS)
    by (repeat constructor; discriminate).
  revert H. induction COMMON_KEY_MAPPINGS as [|[k0 a0] r IH]; simpl;
    intros H Hown; [discriminate|].
  inversion H as [|? ? Hhead Htail]; subst. destruct (String.eqb k0 k).
  - injection Hown as <-. exact Hhead.
  - auto.
Qed.

(** ** Enough fuel *)

Lemma map_items_log_total fuel items :
  Forall (fun v => forall keyMap, List.length keyMap + count_keys v < fuel ->
            exists out keyMap' log,
              traverse_log fuel v keyMap = Some (out, keyMap', log) /\
              List.length keyMap' <= List.length keyMap + count_keys v) items ->
  forall keyMap, List.length keyMap + count_keys (Sequence items) < fuel ->
    exists out keyMap' log,
      map_items_log (traverse_log fuel) items keyMap = Some (out, keyMap', log) /\
      List.length keyMap' <= List.length keyMap + count_keys (Sequence items).
Proof.
  induction 1 as [|item rest Hitem _ IH]; simpl in *; intros keyMap Hfuel.
  - exists [], keyMap, []. split; [reflexivity|lia].
  - destruct (Hitem keyMap) as [item' [km1 [log1 [E1 L1]]]]; [lia|]. rewrite E1.
    destruct (IH km1) as [rest' [km2 [log2 [E2 L2]]]]; [lia|]. rewrite E2.
    eexists _, _, _. split; [reflexivity|lia].
Qed.

Lemma for_entries_log_total fuel entries :
  Forall (fun kv => forall keyMap, List.length keyMap + count_keys (snd kv) < fuel ->
            exists out keyMap' log,
              traverse_log fuel (snd kv) keyMap = Some (out, keyMap', log) /\
              List.length keyMap' <= List.length keyMap + count_keys (snd kv)) entries ->
  forall result keyMap, List.length keyMap + count_keys (Record entries) < fuel ->
    exists out keyMap' log,
      for_entries_log fuel (traverse_log fuel) entries result keyMap
        = Some (out, keyMap', log) /\
      List.length keyMap' <= List.length keyMap + count_keys (Record entries).
Proof.
  induction 1 as [|[key value] rest Hvalue _ IH]; simpl in *; intros result keyMap Hfuel.
  - exists result, keyMap, []. split; [reflexivity|lia].
  - destruct (assign_alias_total fuel keyMap key) as [km0 E0]; [lia|]. rewrite E0.
    apply assign_alias_length in E0.
    destruct (Hvalue km0) as [value' [km1 [log1 [E1 L1]]]]; [lia|]. rewrite E1.
    destruct (IH (JsObject.set result (to_key (get km0 key)) value') km1)
      as [result' [km2 [log2 [E2 L2]]]]; [lia|]. rewrite E2.
    eexists _, _, _. split; [reflexivity|lia].
Qed.

(** With more fuel than the table can ever have values, the walk returns. *)
Lemma traverse_log_total fuel v :
  forall keyMap, List.length keyMap + count_keys v < fuel ->
    exists out keyMap' log,
      traverse_log fuel v keyMap = Some (out, keyMap', log) /\
      List.length keyMap' <= List.length keyMap + count_keys v.
Proof.
  induction v as [| s | items IH | entries IH] using Value_induction; intros keyMap Hfuel.
  - exists Null, keyMap, []. simpl. split; [reflexivity|lia].
  - exists (Prim s), keyMap, []. simpl. split; [reflexivity|lia].
  - destruct (map_items_log_total fuel items IH keyMap Hfuel) as [o [km [lg [E L]]]].
    exists (Sequence o), km, lg. cbn [traverse_log]. rewrite E. auto.
  - destruct (for_entries_log_total fuel entries IH [] keyMap Hfuel) as [o [km [lg [E L]]]].
    exists (Record o), km, lg. cbn [traverse_log]. unfold Object_entries. rewrite E. auto.
Qed.

(** More fuel does not change a result. *)
Lemma traverse_log_mono fuel fuel' v :
  fuel <= fuel' ->
  forall keyMap r, traverse_log fuel v keyMap = Some r -> traverse_log fuel' v keyMap = Some r.
Proof.
  intros Hle.
  induction v as [| s | items IH | entries IH] using Value_induction;
    intros keyMap r; cbn [traverse_log]; try trivial.
  - assert (Hitems : forall km r', map_items_log (traverse_log fuel) items km = Some r' ->
                                   map_items_log (traverse_log fuel') items km = Some r').
    { induction IH as [|item rest Hitem _ IHrest]; simpl; intros km r' Hrun; [assumption|].
      destruct (traverse_log fuel item km) as [[[item' km1] log1]|] eqn:E1; [|discriminate].
      rewrite (Hitem _ _ E1).
      destruct (map_items_log _ rest km1) as [[[rest' km2] log2]|] eqn:E2; [|discriminate].
      now rewrite (IHrest _ _ E2). }
    destruct (map_items_log (traverse_log fuel) items keyMap) as [[[o km] lg]|] eqn:E;
      [|discriminate].
    now rewrite (Hitems _ _ E).
  - unfold Object_entries.
    assert (Hentries : forall res km r',
               for_entries_log fuel (traverse_log fuel) entries res km = Some r' ->
               for_entries_log fuel' (traverse_log fuel') entries res km = Some r').
    { induction IH as [|[key value] rest Hvalue _ IHrest]; simpl; intros res km r' Hrun;
        [assumption|].
      destruct (assign_alias fuel km key) as [km0|] eqn:E0; [|discriminate].
      rewrite (assign_alias_mono _ _ _ _ _ Hle E0).
      destruct (traverse_log fuel value km0) as [[[value' km1] log1]|] eqn:E1; [|discriminate].
      simpl in Hvalue. rewrite (Hvalue _ _ E1).
      destruct (for_entries_log fuel _ rest _ km1) as [[[rest' km2] log2]|] eqn:E2;
        [|discriminate].
      now rewrite (IHrest _ _ _ E2). }
    destruct (for_entries_log fuel _ entries [] keyMap) as [[[o km] lg]|] eqn:E;
      [|discriminate].
    now rewrite (Hentries _ _ _ E).
Qed.


(** [enough_fuel] is enough. *)
Lemma shortenKeys_enough_fuel obj keyMap :
  exists out keyMap',
    (forall n, shortenKeys (enough_fuel obj keyMap + n) obj keyMap = Some (out, keyMap')) /\
    List.length keyMap' < enough_fuel obj keyMap.
Proof.
  destruct (traverse_log_total (enough_fuel obj keyMap) obj (initialize keyMap))
    as [out [keyMap' [log [Hrun Hlen]]]]; [unfold enough_fuel; lia|].
  exists out, keyMap'. split; [|unfold enough_fuel; lia].
  intros n. rewrite shortenKeys_traverse. unfold traverse.
  rewrite (traverse_log_mono _ (enough_fuel obj keyMap + n) _ (Nat.le_add_r _ _) _ _ Hrun).
  reflexivity.
Qed.

(** ** What the walk does keep *)

Lemma NoDup_values_update {A : Type} (o : JsObject.t A) k v :
  ~ In v (Object_values o) -> NoDup (Object_values o) ->
  NoDup (Object_values (update o k v)).
Proof.
  induction o as [|[k0 v0] r IH]; simpl; intros Hin Hnd; [constructor|].
  inversion Hnd as [|? ? Hhead Htail]; subst.
  destruct (String.eqb k0 k); simpl.
  - constructor; [tauto|assumption].
  - constructor; [|apply IH; tauto].
    intros H. apply values_update in H as [->|H]; tauto.
Qed.

Lemma NoDup_values_add {A : Type} (o : JsObject.t A) k v :
  ~ In v (Object_values o) -> NoDup (Object_values o) ->
  NoDup (Object_values (add o k v)).
Proof.
  intros Hin Hnd. unfold add. destruct (array_index k) as [n|].
  - induction o as [|[k0 v0] r IH]; simpl in *; [repeat constructor; tauto|].
    inversion Hnd as [|? ? Hhead Htail]; subst.
    destruct (array_index k0) as [n'|]; [destruct (n <? n')%N|]; simpl;
      try (constructor; [simpl; tauto|assumption]).
    constructor; [|apply IH; tauto].
    intros H. apply values_add_index in H as [->|H]; tauto.
  - unfold Object_values. rewrite map_app. simpl.
    apply NoDup_app; [assumption|repeat constructor; tauto|].
    intros x Hx [<-|[]]. tauto.
Qed.

(** The alias block never gives out an alias twice: aliases that are
    pairwise distinct stay so. *)
Lemma assign_alias_distinct fuel keyMap key keyMap' :
  NoDup (Object_values keyMap) ->
  assign_alias fuel keyMap key = Some keyMap' ->
  NoDup (Object_values keyMap').
Proof.
  intros Hnd. unfold assign_alias.
  destruct (falsy (get keyMap key)) eqn:Hfalsy; [|now intros [= <-]].
  set (short := short_of key).
  assert (Hfresh : forall fuel candidate counter c,
             collision_loop fuel keyMap short candidate counter = Some c ->
             ~ In c (Object_values keyMap)).
  { clear. induction fuel as [|fuel IH]; simpl; intros candidate counter c H;
      [discriminate|].
    destruct (includes (Object_values keyMap) candidate) eqn:E; [eauto|].
    injection H as <-. now apply includes_not_In. }
  destruct (collision_loop fuel keyMap short short 1) as [c|] eqn:Hrun; [|discriminate].
  intros [= <-]. apply Hfresh in Hrun. unfold JsObject.set.
  destruct (own keyMap key).
  - now apply NoDup_values_update.
  - destruct (String.eqb key "__proto__"); [assumption|now apply NoDup_values_add].
Qed.

(** So a table whose aliases are pairwise distinct at the start of the
    walk has pairwise distinct aliases at its end. *)
Lemma traverse_log_distinct fuel v keyMap out keyMap' log :
  NoDup (Object_values keyMap) ->
  traverse_log fuel v keyMap = Some (out, keyMap', log) ->
  NoDup (Object_values keyMap').
Proof.
  intros Hnd Hrun.
  apply (traverse_log_inv (fun t => NoDup (Object_values t)) (fun _ => True) fuel)
    in Hrun; [tauto| |assumption].
  intros km key km' H1 H2. split; [|exact I]. eauto using assign_alias_distinct.
Qed.

Lemma COMMON_KEY_MAPPINGS_not_distinct : ~ NoDup (Object_values COMMON_KEY_MAPPINGS).
Proof.
  intros H. rewrite NoDup_nth_error in H.
  specialize (H 19 24). simpl in H.
  assert (E : 19 = 24) by (apply H; [lia|reflexivity]). discriminate E.
Qed.

Lemma reshaped_set (entries : JsObject.t Value) (result : JsObject.t Value) name v' :
  Forall (fun x' => Exists (fun e => reshaped (snd e) x') entries) (Object_values result) ->
  Exists (fun e => reshaped (snd e) v') entries ->
  Forall (fun x' => Exists (fun e => reshaped (snd e) x') entries)
         (Object_values (JsObject.set result name v')).
Proof.
  intros Hres Hv. apply Forall_forall. intros x Hx.
  apply values_set in Hx as [->|Hx]; [assumption|].
  rewrite Forall_forall in Hres. auto.
Qed.

Lemma map_items_log_reshaped fuel items :
  Forall (fun v => forall keyMap out keyMap' log,
            traverse_log fuel v keyMap = Some (out, keyMap', log) -> reshaped v out)
         items ->
  forall keyMap outs keyMap' log,
    map_items_log (traverse_log fuel) items keyMap = Some (outs, keyMap', log) ->
    Forall2 reshaped items outs.
Proof.
  induction 1 as [|item rest Hitem _ IH]; simpl; intros keyMap outs keyMap' log Hrun.
  - injection Hrun as <- <- <-. constructor.
  - destruct (traverse_log fuel item keyMap) as [[[item' km1] log1]|] eqn:E1;
      [|discriminate].
    destruct (map_items_log _ rest km1) as [[[rest' km2] log2]|] eqn:E2; [|discriminate].
    injection Hrun as <- <- <-. constructor; eauto.
Qed.

Lemma for_entries_log_reshaped fuel (all : JsObject.t Value) entries :
  Forall (fun kv => forall keyMap out keyMap' log,
            traverse_log fuel (snd kv) keyMap = Some (out, keyMap', log) ->
            reshaped (snd kv) out) entries ->
  incl entries all ->
  forall result keyMap out keyMap' log,
    Forall (fun x' => Exists (fun e => reshaped (snd e) x') all) (Object_values result) ->
    for_entries_log fuel (traverse_log fuel) entries result keyMap
      = Some (out, keyMap', log) ->
    Forall (fun x' => Exists (fun e => reshaped (snd e) x') all) (Object_values out) /\
    List.length out <= List.length result + List.length entries.
Proof.
  induction 1 as [|[key value] rest Hvalue _ IH]; simpl;
    intros Hincl result keyMap out keyMap' log Hres Hrun.
  - injection Hrun as <- <- <-. split; [assumption|lia].
  - destruct (assign_alias fuel keyMap key) as [km0|]; [|discriminate].
    destruct (traverse_log fuel value km0) as [[[value' km1] log1]|] eqn:E1;
      [|discriminate].
    destruct (for_entries_log fuel _ rest _ km1) as [[[res km2] log2]|] eqn:E2;
      [|discriminate].
    injection Hrun as <- <- <-.
    apply IH in E2.
    + destruct E2 as [Hall Hlen]. split; [assumption|].
      pose proof (length_set result (to_key (get km0 key)) value'). lia.
    + intros e He. apply Hincl. now right.
    + apply reshaped_set; [assumption|].
      apply Exists_exists. exists (key, value). split; [apply Hincl; now left|].
      simpl in *. eauto.
Qed.

(** The output of the walk has the constructors, the Sequences and the
    leaves of the input; a Record comes back as a Record of images of its
    entries, never more than it had. *)
Lemma traverse_log_reshaped fuel v :
  forall keyMap out keyMap' log,
    traverse_log fuel v keyMap = Some (out, keyMap', log) -> reshaped v out.
Proof.
  induction v as [| s | items IH | entries IH] using Value_induction;
    simpl; intros keyMap out keyMap' log Hrun.
  - injection Hrun as <- <- <-. constructor.
  - injection Hrun as <- <- <-. constructor.
  - destruct (map_items_log _ items keyMap) as [[[items' km] lg]|] eqn:E; [|discriminate].
    injection Hrun as <- <- <-. constructor. eauto using map_items_log_reshaped.
  - unfold Object_entries in Hrun.
    destruct (for_entries_log fuel _ entries [] keyMap) as [[[res km] lg]|] eqn:E;
      [|discriminate].
    injection Hrun as <- <- <-.
    apply (for_entries_log_reshaped fuel entries) in E;
      [|assumption|apply incl_refl|constructor].
    destruct E as [Hall Hlen]. constructor; [simpl in Hlen; lia|assumption].
Qed.

(** The same two facts for [shortenKeys]. *)
Lemma shortenKeys_reshaped fuel v keyMap out keyMap' :
  shortenKeys fuel v keyMap = Some (out, keyMap') -> reshaped v out.
Proof.
  rewrite shortenKeys_traverse. unfold traverse.
  destruct (traverse_log fuel v (initialize keyMap)) as [[[o km] lg]|] eqn:E;
    [|discriminate].
  intros [= <- <-]. eauto using traverse_log_reshaped.
Qed.

Lemma shortenKeys_distinct fuel v keyMap out keyMap' :
  NoDup (Object_values (initialize keyMap)) ->
  shortenKeys fuel v keyMap = Some (out, keyMap') ->
  NoDup (Object_values keyMap').
Proof.
  intros Hnd. rewrite shortenKeys_traverse. unfold traverse.
  destruct (traverse_log fuel v (initialize keyMap)) as [[[o km] lg]|] eqn:E;
    [|discriminate].
  intros [= <- <-]. eauto using traverse_log_distinct.
Qed.

(** ** What a call writes *)

Lemma extends_refl h : extends h h.
Proof. exists []. now rewrite app_nil_r. Qed.

Lemma extends_trans h1 h2 h3 : extends h1 h2 -> extends h2 h3 -> extends h1 h3.
Proof. intros [f1 ->] [f2 ->]. exists (f1 ++ f2)%list. now rewrite app_assoc. Qed.

Lemma extends_length h h' : extends h h' -> List.length h <= List.length h'.
Proof. intros [f ->]. rewrite length_app. lia. Qed.

Lemma extends_nth_error h h' l c :
  extends h h' -> nth_error h l = Some c -> nth_error h' l = Some c.
Proof.
  intros [f ->] H. rewrite nth_error_app1; [assumption|].
  apply nth_error_Some. congruence.
Qed.

Lemma extends_alloc h c : extends h (snd (alloc h c)).
Proof. now exists [c]. Qed.

Lemma length_write h l c : List.length (write h l c) = List.length h.
Proof.
  revert l. induction h as [|x r IH]; intros [|l]; simpl; try reflexivity.
  now rewrite IH.
Qed.

Lemma write_app_above (h f : Heap) l c :
  List.length h <= l ->
  write (h ++ f)%list l c = (h ++ write f (l - List.length h) c)%list.
Proof.
  revert l. induction h as [|x r IH]; simpl; intros l Hl.
  - now rewrite Nat.sub_0_r.
  - destruct l as [|l]; [lia|]. simpl. rewrite IH by lia. reflexivity.
Qed.

Lemma nth_error_write_same h l c :
  l < List.length h -> nth_error (write h l c) l = Some c.
Proof.
  revert l. induction h as [|x r IH]; intros [|l]; simpl; intros Hl; try lia.
  - reflexivity.
  - apply IH. lia.
Qed.

Lemma nth_error_write_other h l l' c :
  l <> l' -> nth_error (write h l c) l' = nth_error h l'.
Proof.
  revert l l'. induction h as [|x r IH]; intros [|l] [|l']; simpl; intros Hne;
    try reflexivity; try congruence.
  apply IH. congruence.
Qed.

Lemma extends_write base h l c :
  extends base h -> List.length base <= l -> extends base (write h l c).
Proof. intros [f ->] Hl. rewrite write_app_above by assumption. now eexists. Qed.

Lemma extends_push base h dst v :
  extends base h -> List.length base <= dst -> extends base (push h dst v).
Proof.
  intros He Hl. unfold push.
  destruct (nth_error h dst) as [[items|props]|]; auto using extends_write.
Qed.

Lemma extends_set_prop base h result name v :
  extends base h -> List.length base <= result -> extends base (set_prop h result name v).
Proof.
  intros He Hl. unfold set_prop.
  destruct (nth_error h result) as [[items|props]|]; auto using extends_write.
Qed.

Section Frame.

Variable f : Heap -> JsValue -> AliasTable -> option (JsValue * Heap * AliasTable).
Variable base : Heap.
Variable target : loc.

Hypothesis f_extends :
  forall h v keyMap out h' keyMap',
    f h v keyMap = Some (out, h', keyMap') -> extends h h'.
Hypothesis target_fresh : List.length base <= target.

Lemma map_heap_extends src remaining :
  forall k h keyMap h' keyMap',
    extends base h ->
    map_heap f src target k remaining h keyMap = Some (h', keyMap') ->
    extends base h'.
Proof.
  induction remaining as [|remaining IH]; simpl; intros k h keyMap h' keyMap' He Hrun.
  - now injection Hrun as <- <-.
  - destruct (nth_error h src) as [[items|props]|]; try discriminate.
    destruct (nth_error items k) as [item|]; [|eauto].
    destruct (f h item keyMap) as [[[item' h1] km1]|] eqn:E1; [|discriminate].
    apply IH in Hrun; [assumption|].
    apply extends_push; [|assumption].
    eauto using extends_trans.
Qed.

Lemma for_entries_heap_extends fuel entries :
  forall h keyMap h' keyMap',
    extends base h ->
    for_entries_heap fuel f target entries h keyMap = Some (h', keyMap') ->
    extends base h'.
Proof.
  induction entries as [|[key value] rest IH]; simpl; intros h keyMap h' keyMap' He Hrun.
  - now injection Hrun as <- <-.
  - destruct (assign_alias fuel keyMap key) as [km0|]; [|discriminate].
    destruct (f h value km0) as [[[value' h1] km1]|] eqn:E1; [|discriminate].
    apply IH in Hrun; [assumption|].
    apply extends_set_prop; [|assumption].
    eauto using extends_trans.
Qed.

End Frame.

(** A call leaves every cell of the heap it is given as it was: it writes
    only to the cells it allocates. *)
Lemma shortenKeys_heap_extends depth fuel :
  forall h obj keyMap out h' keyMap',
    shortenKeys_heap depth fuel h obj keyMap = Some (out, h', keyMap') ->
    extends h h'.
Proof.
  induction depth as [|depth IH]; simpl; intros h obj keyMap out h' keyMap' Hrun;
    [discriminate|].
  destruct obj as [| s | l].
  - injection Hrun as <- <- <-. apply extends_refl.
  - injection Hrun as <- <- <-. apply extends_refl.
  - destruct (nth_error h l) as [[items|props]|]; [| |discriminate].
    + destruct (map_heap _ l _ 0 _ _ _) as [[h1 km1]|] eqn:E; [|discriminate].
      injection Hrun as <- <- <-.
      eapply map_heap_extends in E; eauto. now exists [ArrayCell []].
    + destruct (for_entries_heap fuel _ _ _ _ _) as [[h1 km1]|] eqn:E; [|discriminate].
      injection Hrun as <- <- <-.
      eapply for_entries_heap_extends in E; eauto. now exists [ObjectCell []].
Qed.

Lemma extends_nth_error_old h h' l :
  extends h h' -> l < List.length h -> nth_error h' l = nth_error h l.
Proof. intros [f ->] Hl. now apply nth_error_app1. Qed.

(** ** Objects with related values

    [JsObject.set] looks at keys only: it acts alike on two objects that
    have the same keys in the same order. *)

Section Related_objects.

Context {A B : Type}.
Variable T : A -> B -> Prop.

Lemma related_own o1 o2 k :
  related T o1 o2 ->
  match own o1 k, own o2 k with
  | Some a, Some b => T a b
  | None, None => True
  | _, _ => False
  end.
Proof.
  induction 1 as [|[k1 a] [k2 b] r1 r2 [Hk Ht] _ IH]; simpl in *; [exact I|].
  subst k2. destruct (String.eqb k1 k); assumption.
Qed.

Lemma related_update o1 o2 k a b :
  related T o1 o2 -> T a b -> related T (update o1 k a) (update o2 k b).
Proof.
  intros Hrel Ht.
  induction Hrel as [|[k1 a1] [k2 b1] r1 r2 [Hk Ht1] Hr IH]; simpl in *; [constructor|].
  subst k2. destruct (String.eqb k1 k); constructor; simpl; auto.
Qed.

Lemma related_add_index o1 o2 n k a b :
  related T o1 o2 -> T a b -> related T (add_index o1 n k a) (add_index o2 n k b).
Proof.
  intros Hrel Ht.
  induction Hrel as [|[k1 a1] [k2 b1] r1 r2 [Hk Ht1] Hr IH]; simpl in *.
  - constructor; [simpl; auto|constructor].
  - subst k2. destruct (array_index k1) as [n'|]; [destruct (n <? n')%N|];
      repeat (constructor; simpl; auto).
Qed.

Lemma related_add o1 o2 k a b :
  related T o1 o2 -> T a b -> related T (add o1 k a) (add o2 k b).
Proof.
  intros Hrel Ht. unfold add. destruct (array_index k).
  - now apply related_add_index.
  - apply Forall2_app; [assumption|]. constructor; [simpl; auto|constructor].
Qed.

Lemma related_set o1 o2 k a b :
  related T o1 o2 -> T a b -> related T (JsObject.set o1 k a) (JsObject.set o2 k b).
Proof.
  intros Hrel Ht. unfold JsObject.set.
  pose proof (related_own o1 o2 k Hrel) as Hown.
  destruct (own o1 k), (own o2 k); try contradiction.
  - now apply related_update.
  - destruct (String.eqb k "__proto__"); [assumption|now apply related_add].
Qed.

End Related_objects.

(** ** The heap model and the model on trees agree *)

Lemma Forall2_Forall_impl {A B : Type} (R R' : A -> B -> Prop) la lb :
  Forall (fun b => forall a, R a b -> R' a b) lb ->
  Forall2 R la lb -> Forall2 R' la lb.
Proof.
  intros Hall H. induction H as [|a b la lb Hab _ IH]; constructor;
    inversion Hall; subst; auto.
Qed.

Lemma rep_transport P Q h h' V :
  (forall l, P l -> Q l /\ nth_error h' l = nth_error h l) ->
  forall v, rep P h v V -> rep Q h' v V.
Proof.
  intros Hpq.
  induction V as [| s | Vs IH | entries IH] using Value_induction; intros v Hrep;
    inversion Hrep; subst.
  - constructor.
  - constructor.
  - destruct (Hpq l) as [Hq Hnth]; [assumption|].
    apply rep_array with (items := items); [assumption|congruence|].
    eapply Forall2_Forall_impl; [exact IH|assumption].
  - destruct (Hpq l) as [Hq Hnth]; [assumption|].
    apply rep_object with (props := props); [assumption|congruence|].
    eapply Forall2_Forall_impl; [|eassumption].
    eapply Forall_impl; [|exact IH]. intros e He p [Hk Hr]. auto.
Qed.

Lemma rep_extends h h' v V :
  extends h h' ->
  rep (fun l => l < List.length h) h v V ->
  rep (fun l => l < List.length h) h' v V.
Proof.
  intros He. apply rep_transport. intros l Hl. split; [assumption|].
  now apply extends_nth_error_old.
Qed.

Lemma height_items (depth : nat) items :
  fold_right (fun item n => Nat.max (height item) n) 0 items <= depth ->
  Forall (fun item => height item <= depth) items.
Proof.
  induction items as [|item rest IH]; simpl; intros H; constructor; [lia|].
  apply IH. lia.
Qed.

Lemma height_entries (depth : nat) (entries : list (string * Value)) :
  fold_right (fun kv n => Nat.max (height (snd kv)) n) 0 entries <= depth ->
  Forall (fun kv => height (snd kv) <= depth) entries.
Proof.
  induction entries as [|kv rest IH]; simpl; intros H; constructor; [lia|].
  apply IH. lia.
Qed.

Section Refinement_loops.

Variables fuel depth : nat.
Variable base : Heap.
Variable target : loc.
Hypothesis target_fresh : List.length base <= target.

Lemma old_rep_now (hc : Heap) v V :
  extends base hc -> rep (fun l => l < List.length base) base v V -> rep (fun l => l < List.length hc) hc v V.
Proof.
  intros Hext. apply rep_transport. intros l Hl.
  pose proof (extends_length _ _ Hext).
  split; [lia|now apply extends_nth_error_old].
Qed.

Lemma inside_rep_later (hc h1 : Heap) c v V :
  extends hc h1 -> target < List.length hc ->
  rep (fun l => target < l < List.length hc) hc v V -> rep (fun l => target < l < List.length (write h1 target c)) (write h1 target c) v V.
Proof.
  intros Hext Hlen. apply rep_transport. intros l [Hl1 Hl2].
  pose proof (extends_length _ _ Hext). rewrite length_write.
  split; [lia|]. rewrite nth_error_write_other by lia.
  now apply extends_nth_error_old.
Qed.

Lemma fresh_rep_later (hc h1 : Heap) c v V :
  target < List.length hc ->
  rep (fun l => List.length hc <= l < List.length h1) h1 v V ->
  rep (fun l => target < l < List.length (write h1 target c)) (write h1 target c) v V.
Proof.
  intros Hlen. apply rep_transport. intros l [Hl1 Hl2].
  rewrite length_write. split; [lia|]. apply nth_error_write_other. lia.
Qed.

Lemma for_entries_refines entries :
  Forall (fun kv => refines_at fuel (snd kv)) entries ->
  Forall (fun kv => height (snd kv) <= depth) entries ->
  forall props hc keyMap accH accP resP keyMap',
    related (rep (fun l => l < List.length base) base) props entries ->
    extends base hc -> target < List.length hc ->
    nth_error hc target = Some (ObjectCell accH) ->
    related (rep (fun l => target < l < List.length hc) hc) accH accP ->
    for_entries fuel (shortenKeys fuel) entries accP keyMap = Some (resP, keyMap') ->
    exists h' resH,
      for_entries_heap fuel (shortenKeys_heap depth fuel) target props hc keyMap
        = Some (h', keyMap') /\
      extends base h' /\ List.length hc <= List.length h' /\
      nth_error h' target = Some (ObjectCell resH) /\
      related (rep (fun l => target < l < List.length h') h') resH resP.
Proof.
  induction entries as [|[key V] rest IH];
    intros Hall Hheight props hc keyMap accH accP resP keyMap'
           Hprops Hext Hlen Hcell Hacc Hrun.
  - inversion Hprops; subst. simpl in *. injection Hrun as <- <-.
    exists hc, accH. auto 6.
  - inversion Hprops as [|[key' v] e props' rest' [Hk Hv] Hrest]; subst.
    simpl in Hk, Hv. subst key'.
    inversion Hall as [|? ? HV Hall']; subst.
    inversion Hheight as [|? ? HhV Hheight']; subst.
    simpl in Hrun, HV, HhV |- *.
    destruct (assign_alias fuel keyMap key) as [km1|] eqn:E0; [|discriminate].
    destruct (shortenKeys fuel V km1) as [[V' km2]|] eqn:E1; [|discriminate].
    destruct (HV depth hc v km1 V' km2 (old_rep_now _ _ _ Hext Hv) E1 HhV)
      as [out [h1 [Eh [Hext1 Hout]]]].
    rewrite Eh.
    assert (Hcell1 : nth_error h1 target = Some (ObjectCell accH))
      by eauto using extends_nth_error.
    pose proof (extends_length _ _ Hext1) as Hlen1.
    unfold set_prop. rewrite Hcell1.
    set (name := to_key (get km1 key)) in *.
    set (cell := ObjectCell (JsObject.set accH name out)).
    destruct (IH Hall' Hheight' props' (write h1 target cell) km2
                 (JsObject.set accH name out) (JsObject.set accP name V') resP keyMap')
      as [h' [resH [Erun [Hext' [Hlen' [Hcell' Hres]]]]]]; try assumption.
    + apply extends_write; [|assumption]. eauto using extends_trans.
    + rewrite length_write. lia.
    + apply nth_error_write_same. lia.
    + apply related_set.
      * eapply Forall2_impl; [|exact Hacc]. intros p e [Hfst Hrep].
        split; [assumption|]. eapply inside_rep_later; eauto.
      * eapply fresh_rep_later; eauto.
    + exists h', resH. rewrite length_write in Hlen'.
      repeat split; try assumption. lia.
Qed.

Lemma map_items_refines src Vs :
  Forall (refines_at fuel) Vs ->
  Forall (fun V => height V <= depth) Vs ->
  forall done todo hc keyMap accH accP outs keyMap',
    nth_error base src = Some (ArrayCell (done ++ todo)) ->
    Forall2 (rep (fun l => l < List.length base) base) todo Vs ->
    extends base hc -> target < List.length hc ->
    nth_error hc target = Some (ArrayCell accH) ->
    Forall2 (rep (fun l => target < l < List.length hc) hc) accH accP ->
    map_items (shortenKeys fuel) Vs keyMap = Some (outs, keyMap') ->
    exists h' resH,
      map_heap (shortenKeys_heap depth fuel) src target
               (List.length done) (List.length Vs) hc keyMap = Some (h', keyMap') /\
      extends base h' /\ List.length hc <= List.length h' /\
      nth_error h' target = Some (ArrayCell resH) /\
      Forall2 (rep (fun l => target < l < List.length h') h') resH (accP ++ outs).
Proof.
  induction Vs as [|V rest IH];
    intros Hall Hheight done todo hc keyMap accH accP outs keyMap'
           Hsrc Htodo Hext Hlen Hcell Hacc Hrun.
  - simpl in *. injection Hrun as <- <-. exists hc, accH.
    rewrite app_nil_r. auto 6.
  - inversion Htodo as [|v ? todo' ? Hv Hrest]; subst.
    inversion Hall as [|? ? HV Hall']; subst.
    inversion Hheight as [|? ? HhV Hheight']; subst.
    simpl in Hrun |- *.
    rewrite (extends_nth_error _ _ _ _ Hext Hsrc).
    rewrite nth_error_app2, Nat.sub_diag by lia. simpl.
    destruct (shortenKeys fuel V keyMap) as [[V' km1]|] eqn:E1; [|discriminate].
    destruct (map_items (shortenKeys fuel) rest km1) as [[outs' km2]|] eqn:E2;
      [|discriminate].
    injection Hrun as <- <-.
    destruct (HV depth hc v keyMap V' km1 (old_rep_now _ _ _ Hext Hv) E1 HhV)
      as [out [h1 [Eh [Hext1 Hout]]]].
    rewrite Eh.
    assert (Hcell1 : nth_error h1 target = Some (ArrayCell accH))
      by eauto using extends_nth_error.
    pose proof (extends_length _ _ Hext1) as Hlen1.
    unfold push. rewrite Hcell1.
    set (cell := ArrayCell (accH ++ [out])).
    destruct (IH Hall' Hheight' (done ++ [v])%list todo' (write h1 target cell) km1
                 (accH ++ [out])%list (accP ++ [V'])%list outs' km2)
      as [h' [resH [Erun [Hext' [Hlen' [Hcell' Hres]]]]]]; try assumption.
    + now rewrite <- app_assoc.
    + apply extends_write; [|assumption]. eauto using extends_trans.
    + rewrite length_write. lia.
    + apply nth_error_write_same. lia.
    + apply Forall2_app.
      * eapply Forall2_impl; [|exact Hacc]. intros a b Hrep.
        eapply inside_rep_later; eauto.
      * constructor; [|constructor]. eapply fresh_rep_later; eauto.
    + exists h', resH. rewrite length_write in Hlen'.
      rewrite length_app, Nat.add_1_r in Erun. rewrite <- app_assoc in Hres.
      repeat split; try assumption. lia.
Qed.

End Refinement_loops.

(** On a heap that lays out the tree [V], the heap model returns, with any
    [depth] from the nesting of [V] on, what the model on trees returns:
    the same table, and a value that lays out the same output tree in cells
    allocated by the call. *)
Theorem heap_refines fuel V : refines_at fuel V.
Proof.
  induction V as [| s | Vs IH | entries IH] using Value_induction;
    intros depth h v keyMap out' keyMap' Hrep Hrun Hheight;
    (destruct depth as [|depth]; [simpl in Hheight; lia|]);
    inversion Hrep; subst; simpl in Hrun |- *.
  - injection Hrun as <- <-. exists JNull, h.
    split; [reflexivity|]. split; [apply extends_refl|constructor].
  - injection Hrun as <- <-. exists (JPrim s), h.
    split; [reflexivity|]. split; [apply extends_refl|constructor].
  - match goal with H : nth_error h l = _ |- _ => rename H into Hcell end.
    match goal with H : Forall2 _ items Vs |- _ => rename H into Hitems end.
    rewrite Hcell.
    destruct (map_items (shortenKeys fuel) Vs (initialize keyMap)) as [[outs km1]|] eqn:E;
      [|discriminate].
    injection Hrun as <- <-.
    rewrite (Forall2_length Hitems).
    assert (Hh : Forall (fun V => height V <= depth) Vs)
      by (apply height_items; simpl in Hheight; lia).
    destruct (map_items_refines fuel depth h (List.length h) (le_n _) l Vs IH
                Hh [] items
                (h ++ [ArrayCell []])%list (initialize keyMap) [] [] outs km1)
      as [h' [resH [Erun [Hext' [Hlen' [Hcell' Hres]]]]]]; try assumption.
    + now exists [ArrayCell []].
    + rewrite length_app. simpl. lia.
    + now rewrite nth_error_app2, Nat.sub_diag by lia.
    + constructor.
    + simpl in Erun. rewrite Erun. rewrite length_app in Hlen'. simpl in Hlen'.
      exists (JRef (List.length h)), h'. split; [reflexivity|]. split; [assumption|].
      apply rep_array with (items := resH); [lia|assumption|].
      eapply Forall2_impl; [|exact Hres]. intros a b.
      apply rep_transport. intros l0 Hl0. split; [lia|reflexivity].
  - match goal with H : nth_error h l = _ |- _ => rename H into Hcell end.
    match goal with H : Forall2 _ props entries |- _ => rename H into Hprops end.
    rewrite Hcell. unfold Object_entries in *.
    destruct (for_entries fuel (shortenKeys fuel) entries [] (initialize keyMap))
      as [[res km1]|] eqn:E; [|discriminate].
    injection Hrun as <- <-.
    assert (Hh : Forall (fun kv => height (snd kv) <= depth) entries)
      by (apply height_entries; simpl in Hheight; lia).
    destruct (for_entries_refines fuel depth h (List.length h) (le_n _) entries IH
                Hh props
                (h ++ [ObjectCell []])%list (initialize keyMap) [] [] res km1)
      as [h' [resH [Erun [Hext' [Hlen' [Hcell' Hres]]]]]]; try assumption.
    + now exists [ObjectCell []].
    + rewrite length_app. simpl. lia.
    + now rewrite nth_error_app2, Nat.sub_diag by lia.
    + constructor.
    + rewrite Erun. rewrite length_app in Hlen'. simpl in Hlen'.
      exists (JRef (List.length h)), h'. split; [reflexivity|]. split; [assumption|].
      apply rep_object with (props := resH); [lia|assumption|].
      eapply Forall2_impl; [|exact Hres]. intros a b [Hk Hr]. split; [assumption|].
      revert Hr. apply rep_transport. intros l0 Hl0. split; [lia|reflexivity].
Qed.

(** ** The properties of the specification *)

(** C1 (alias uniqueness) fails on the code. With the table that line 98
    loads, the distinct keys [type] and [to] of one Record are both written
    under the alias [t]: [COMMON_KEY_MAPPINGS] gives the two keys the same
    alias, and the collision loop of lines 118-123 only runs for keys the
    table does not have. *)
Theorem common_aliases_collide fuel :
  shortenKeys_log fuel type_to_record []
  = Some (Record [("t", Prim (Str "bob"))], COMMON_KEY_MAPPINGS,
          [mkEvent "type" "t" false; mkEvent "to" "t" false]).
Proof. vm_compute. reflexivity. Qed.

(** C2 (alias derivation for every key that is not in the table) fails on
    the code for the keys every object inherits from [Object.prototype]:
    the table has no entry for [constructor], yet [keyMap[key]] is truthy,
    lines 110-125 do not run, the table stays as it was and the value is
    written under the text of the inherited function. *)
Theorem inherited_key_not_derived fuel :
  own COMMON_KEY_MAPPINGS "constructor" = None /\
  shortenKeys_log fuel constructor_record []
  = Some (Record [("function Object() { [native code] }", Prim (Str "x"))],
          COMMON_KEY_MAPPINGS,
          [mkEvent "constructor" "function Object() { [native code] }" false]).
Proof. split; vm_compute; reflexivity. Qed.

(** C3 as the specification words it: with the empty table the call would
    return the aliases [lcn] and [mdl] and a table of just these two pairs.
    It does not, with any fuel: the empty table is first filled with the
    common mappings, which have both keys. *)
Lemma license_scenario_counterexample :
  ~ exists fuel,
      shortenKeys fuel license_record []
      = Some (Record [("lcn", Prim (Str "Started")); ("mdl", Prim (Str "prod"))],
              [("LicenseValidator", "lcn"); ("ModelName", "mdl")]).
Proof. intros [fuel H]. vm_compute in H. discriminate H. Qed.

Lemma short_of_license : short_of "LicenseValidator" = "lcn" /\ short_of "ModelName" = "mdl".
Proof. split; reflexivity. Qed.

(** C3, amended. With the empty table the call returns the seed's aliases
    [lv] and [mn], and the table is [COMMON_KEY_MAPPINGS]. The aliases [lcn]
    and [mdl] are what the call returns with a table that is not empty, in
    which [keyMap[key]] is falsy for both keys and which has neither alias
    among its values; the table then ends with the two pairs assigned. *)
Theorem license_scenario fuel keyMap :
  keyMap <> [] ->
  falsy (get keyMap "LicenseValidator") = true ->
  falsy (get keyMap "ModelName") = true ->
  ~ In "lcn" (Object_values keyMap) ->
  ~ In "mdl" (Object_values keyMap) ->
  shortenKeys fuel license_record []
  = Some (Record [("lv", Prim (Str "Started")); ("mn", Prim (Str "prod"))],
          COMMON_KEY_MAPPINGS) /\
  shortenKeys (S fuel) license_record keyMap
  = Some (Record [("lcn", Prim (Str "Started")); ("mdl", Prim (Str "prod"))],
          JsObject.set (JsObject.set keyMap "LicenseValidator" "lcn")
                       "ModelName" "mdl").
Proof.
  intros Hne Hlv Hmn Hlcn Hmdl.
  split; [vm_compute; reflexivity|].
  set (keyMap1 := JsObject.set keyMap "LicenseValidator" "lcn").
  assert (E1 : assign_alias (S fuel) keyMap "LicenseValidator" = Some keyMap1).
  { unfold assign_alias. rewrite Hlv.
    change (short_of "LicenseValidator") with "lcn". simpl.
    apply includes_not_In in Hlcn. now rewrite Hlcn. }
  assert (G1 : get keyMap1 "LicenseValidator" = OwnString "lcn").
  { unfold get, keyMap1. rewrite own_set_same; [reflexivity|right; discriminate]. }
  assert (Hmn1 : falsy (get keyMap1 "ModelName") = true).
  { unfold get, keyMap1. rewrite own_set_other by discriminate. exact Hmn. }
  assert (Hmdl1 : ~ In "mdl" (Object_values keyMap1)).
  { intros Hin. apply values_set in Hin as [Hin|Hin]; [discriminate|auto]. }
  assert (E2 : assign_alias (S fuel) keyMap1 "ModelName"
               = Some (JsObject.set keyMap1 "ModelName" "mdl")).
  { unfold assign_alias. rewrite Hmn1.
    change (short_of "ModelName") with "mdl". simpl.
    apply includes_not_In in Hmdl1. now rewrite Hmdl1. }
  assert (G2 : get (JsObject.set keyMap1 "ModelName" "mdl") "ModelName" = OwnString "mdl").
  { unfold get. rewrite own_set_same; [reflexivity|right; discriminate]. }
  rewrite shortenKeys_traverse_not_empty by assumption.
  unfold traverse, license_record. cbn [traverse_log Object_entries for_entries_log].
  rewrite E1, G1. cbn [traverse_log]. rewrite E2, G2. reflexivity.
Qed.

Lemma license_scenario_witness :
  ([("x", "x")] <> [] /\
   falsy (get [("x", "x")] "LicenseValidator") = true /\
   falsy (get [("x", "x")] "ModelName") = true /\
   ~ In "lcn" (Object_values [("x", "x")]) /\
   ~ In "mdl" (Object_values [("x", "x")])) /\
  shortenKeys 0 license_record []
  = Some (Record [("lv", Prim (Str "Started")); ("mn", Prim (Str "prod"))],
          COMMON_KEY_MAPPINGS) /\
  shortenKeys 1 license_record [("x", "x")]
  = Some (Record [("lcn", Prim (Str "Started")); ("mdl", Prim (Str "prod"))],
          [("x", "x"); ("LicenseValidator", "lcn"); ("ModelName", "mdl")]).
Proof.
  assert (H1 : [("x", "x")] <> @nil (string * string)) by discriminate.
  assert (H2 : falsy (get [("x", "x")] "LicenseValidator") = true) by reflexivity.
  assert (H3 : falsy (get [("x", "x")] "ModelName") = true) by reflexivity.
  assert (H4 : ~ In "lcn" (Object_values [("x", "x")]))
    by (simpl; intros [H|[]]; discriminate H).
  assert (H5 : ~ In "mdl" (Object_values [("x", "x")]))
    by (simpl; intros [H|[]]; discriminate H).
  split; [repeat split; assumption|].
  exact (license_scenario 0 [("x", "x")] H1 H2 H3 H4 H5).
Defined.


(** C5 (one alias per key within a traversal) fails on the code for the
    empty key: its first alias is the empty string, which line 108 takes for
    a missing entry, so the second occurrence is derived again and becomes
    [1], and the table entry is overwritten. *)
Theorem empty_key_aliased_twice n :
  shortenKeys_log (2 + n) empty_key_records []
  = Some (Sequence [Record [("", Prim (Str "x"))]; Record [("1", Prim (Str "y"))]],
          JsObject.set COMMON_KEY_MAPPINGS "" "1",
          [mkEvent "" "" true; mkEvent "" "1" true]).
Proof. vm_compute. reflexivity. Qed.

(** C6 (structural preservation) fails on the code: the Record with the two
    entries [type] and [to] comes back with one entry, the second value
    written over the first under the shared alias [t]. *)
Theorem colliding_entries_merge fuel :
  exists out keyMap',
    shortenKeys fuel type_to_record [] = Some (out, keyMap') /\
    shape type_to_record = Record [("", Prim (Str "email")); ("", Prim (Str "bob"))] /\
    shape out = Record [("", Prim (Str "bob"))].
Proof.
  eexists _, _. split; [vm_compute; reflexivity|].
  split; vm_compute; reflexivity.
Qed.

(** Entry order: an alias that is an array index is enumerated first. *)
Example index_alias_moves_first :
  option_map fst
    (shortenKeys 1 (Record [("x", Prim (Str "a")); ("1a", Prim (Str "b"))]) [])
  = Some (Record [("1", Prim (Str "b")); ("x", Prim (Str "a"))]).
Proof. vm_compute. reflexivity. Qed.

(** C7 (round trip through the table) fails on the code: the only key of
    the output is [t], and the returned table read backwards gives two
    original keys for it, so the keys [type] and [to] of the input are not
    recovered from the output. *)
Theorem reverse_lookup_ambiguous fuel :
  exists out keyMap',
    shortenKeys fuel type_to_record [] = Some (out, keyMap') /\
    record_keys type_to_record = ["type"; "to"] /\
    record_keys out = ["t"] /\
    originals keyMap' "t" = ["type"; "to"].
Proof.
  eexists _, _. split; [vm_compute; reflexivity|].
  split; [|split]; vm_compute; reflexivity.
Qed.

(** C8 (no mutation of the input). Let the heap [h] hold the input: [v]
    lays out the tree [V] in it. With enough fuel and depth the call
    returns; every cell of [h] is in the heap after the call as it was
    before, so [v] still lays out [V]; the output lays out the output tree
    of the model on trees in cells that the call has allocated; and the
    alias table is the one object the call has changed. *)
Theorem input_not_mutated h v V keyMap depth n :
  rep (fun l => l < List.length h) h v V ->
  height V <= depth ->
  exists out h' out' keyMap',
    shortenKeys_heap depth (enough_fuel V keyMap + n) h v keyMap
      = Some (out, h', keyMap') /\
    shortenKeys (enough_fuel V keyMap + n) V keyMap = Some (out', keyMap') /\
    extends h h' /\
    rep (fun l => l < List.length h) h' v V /\
    rep (fun l => List.length h <= l < List.length h') h' out out'.
Proof.
  intros Hrep Hdepth.
  destruct (shortenKeys_enough_fuel V keyMap) as [out' [keyMap' [Hrun _]]].
  destruct (heap_refines _ V depth h v keyMap out' keyMap' Hrep (Hrun n) Hdepth)
    as [out [h' [Eh [Hext Hout]]]].
  exists out, h', out', keyMap'.
  repeat split; auto using rep_extends.
Qed.

Lemma input_not_mutated_witness :
  (rep (fun l => l < List.length example_heap) example_heap (JRef 0) example_tree /\
   height example_tree <= 3) /\
  exists out h' out' keyMap',
    shortenKeys_heap 3 (enough_fuel example_tree [] + 0) example_heap (JRef 0) []
      = Some (out, h', keyMap') /\
    shortenKeys (enough_fuel example_tree [] + 0) example_tree [] = Some (out', keyMap') /\
    extends example_heap h' /\
    rep (fun l => l < List.length example_heap) h' (JRef 0) example_tree /\
    rep (fun l => List.length example_heap <= l < List.length h') h' out out'.
Proof.
  assert (Hrep : rep (fun l => l < List.length example_heap) example_heap
                     (JRef 0) example_tree).
  { apply rep_object with (props := [("ModelName", JRef 1)]);
      [simpl; lia|reflexivity|].
    constructor; [|constructor]. split; [reflexivity|]. simpl.
    apply rep_array with (items := [JPrim (Str "gpt"); JNull]);
      [simpl; lia|reflexivity|].
    repeat constructor. }
  assert (Hheight : height example_tree <= 3) by (simpl; lia).
  split; [split; assumption|].
  exact (input_not_mutated example_heap (JRef 0) example_tree [] 3 0 Hrep Hheight).
Defined.

(** C9 (totality and termination). For every value and every table there
    is one result that [shortenKeys] returns with every amount of fuel from
    [enough_fuel] on: no [while] loop runs out, each stops within as many
    steps as the table has values plus one, and the recursion is on the
    structure of the value. *)
Theorem shortenKeys_total obj keyMap :
  exists out keyMap',
    (forall n, shortenKeys (enough_fuel obj keyMap + n) obj keyMap = Some (out, keyMap')) /\
    List.length keyMap' < enough_fuel obj keyMap.
Proof.
  destruct (traverse_log_total (enough_fuel obj keyMap) obj (initialize keyMap))
    as [out [keyMap' [log [Hrun Hlen]]]]; [unfold enough_fuel; lia|].
  exists out, keyMap'. split; [|unfold enough_fuel; lia].
  intros n. rewrite shortenKeys_traverse. unfold traverse.
  now rewrite (traverse_log_mono _ (enough_fuel obj keyMap + n) _
                 (Nat.le_add_r _ _) _ _ Hrun).
Qed.

(** The degenerate keys of the fallback rule. *)
Example short_of_degenerate :
  short_of "" = "" /\ short_of "aeiou" = "ae" /\ short_of "E" = "e" /\ short_of "b" = "b".
Proof. repeat split. Qed.

(** C10 (automatic seeding). Called with the empty table, and so with the
    default argument, [shortenKeys] is the traversal started on a table that
    holds all of [COMMON_KEY_MAPPINGS]; called with any other table it is
    the traversal started on that table, with nothing added to it first. *)
Theorem automatic_seeding fuel obj keyMap :
  shortenKeys fuel obj keyMap
  = traverse fuel obj (match keyMap with [] => COMMON_KEY_MAPPINGS | _ :: _ => keyMap end)
  /\ shortenKeys_default fuel obj = traverse fuel obj COMMON_KEY_MAPPINGS.
Proof.
  split.
  - rewrite shortenKeys_traverse. destruct keyMap; [now rewrite initialize_empty|reflexivity].
  - unfold shortenKeys_default. now rewrite shortenKeys_traverse, initialize_empty.
Qed.

(** ** Further properties of the code *)

(** *** removeNullsAndEmpty *)

Lemma forallb_values (q : Value -> bool) (o : JsObject.t Value) :
  forallb (fun kv => q (snd kv)) o = true <-> Forall (fun x => q x = true) (Object_values o).
Proof.
  rewrite forallb_forall, Forall_forall. unfold Object_values. split.
  - intros H x Hx. apply in_map_iff in Hx as [kv [<- Hkv]]. auto.
  - intros H kv Hkv. apply H. now apply in_map.
Qed.

(** What holds of the value of every kept entry after the call of line 45
    holds of every value of the object the loop builds. *)
Lemma keep_entries_values (Q : Value -> Prop) f entries :
  Forall (fun kv => kept (snd kv) = true -> Q (f (snd kv))) entries ->
  forall result,
    Forall Q (Object_values result) ->
    Forall Q (Object_values (keep_entries f entries result)).
Proof.
  induction 1 as [|[key value] rest Hvalue _ IH]; simpl; intros result Hres;
    [assumption|].
  destruct (kept value) eqn:Hkept; [|auto].
  apply IH. apply Forall_forall. intros x Hx.
  apply values_set in Hx as [->|Hx]; [auto|].
  rewrite Forall_forall in Hres. auto.
Qed.

Lemma removeNullsAndEmpty_not_null v : not_null (removeNullsAndEmpty v) = not_null v.
Proof. destruct v; reflexivity. Qed.

Lemma kept_not_null v : kept v = true -> not_null v = true.
Proof. unfold kept. destruct (not_null v); [reflexivity|discriminate]. Qed.

Lemma removeNullsAndEmpty_output_facts v :
  null_free (removeNullsAndEmpty v) = true /\
  no_empty_string_entry (removeNullsAndEmpty v) = true.
Proof.
  induction v as [| s | items IH | entries IH] using Value_induction; simpl;
    try (split; reflexivity).
  - split; apply forallb_forall; intros x Hx;
      apply filter_In in Hx as [Hx Hnn]; apply in_map_iff in Hx as [item [<- Hitem]];
      rewrite Forall_forall in IH; destruct (IH item Hitem) as [H1 H2].
    + rewrite Hnn, H1. reflexivity.
    + exact H2.
  - unfold Object_entries. split.
    + apply (forallb_values (fun x => not_null x && null_free x)).
      apply keep_entries_values; [|constructor].
      eapply Forall_impl; [|exact IH]. intros [key value] [H1 H2] Hkept. simpl in *.
      rewrite removeNullsAndEmpty_not_null, (kept_not_null _ Hkept), H1. reflexivity.
    + apply (forallb_values
               (fun x => negb (match x with Prim (Str s) => is_empty s | _ => false end)
                         && no_empty_string_entry x)).
      apply keep_entries_values; [|constructor].
      eapply Forall_impl; [|exact IH]. intros [key value] [H1 H2] Hkept. simpl in *.
      rewrite H2, andb_true_r.
      destruct value as [| [s| |] | |]; try reflexivity.
      destruct s; [discriminate Hkept|reflexivity].
Qed.

(** X1. Whatever the input, the value that [removeNullsAndEmpty] returns
    has no [null] below its root, and none of its Records, at any depth,
    has an entry that is the empty string. *)
Theorem removeNullsAndEmpty_output v :
  null_free (removeNullsAndEmpty v) = true /\
  no_empty_string_entry (removeNullsAndEmpty v) = true.
Proof. exact (removeNullsAndEmpty_output_facts v). Qed.

Lemma own_None_keys {A : Type} (o : JsObject.t A) k :
  existsb (String.eqb k) (Object_keys o) = false -> own o k = None.
Proof.
  induction o as [|[k0 v0] r IH]; simpl; [reflexivity|].
  rewrite String.eqb_sym. destruct (String.eqb k0 k); simpl; [discriminate|exact IH].
Qed.

Lemma add_index_last {A : Type} (o : JsObject.t A) n k v :
  forallb (fun k' => match array_index k' with
                     | Some n' => (n' <? n)%N
                     | None => false
                     end) (Object_keys o) = true ->
  add_index o n k v = (o ++ [(k, v)])%list.
Proof.
  induction o as [|[k0 v0] r IH]; simpl; [reflexivity|].
  intros H. apply andb_prop in H as [H0 Hr].
  destruct (array_index k0) as [n'|]; [|discriminate].
  apply N.ltb_lt in H0.
  destruct (n <? n')%N eqn:E; [apply N.ltb_lt in E; lia|].
  now rewrite IH.
Qed.

(** Assigning a key that fits after the keys of an object appends it. *)
Lemma set_fits {A : Type} (o : JsObject.t A) k v :
  key_fits (Object_keys o) k = true -> JsObject.set o k v = (o ++ [(k, v)])%list.
Proof.
  unfold key_fits. intros H.
  apply andb_prop in H as [H Hidx]. apply andb_prop in H as [Hnew Hproto].
  apply negb_true_iff in Hnew, Hproto.
  unfold JsObject.set. rewrite (own_None_keys _ _ Hnew), Hproto.
  unfold add. destruct (array_index k); [now apply add_index_last|reflexivity].
Qed.

Lemma keep_entries_same f rest :
  forall pre,
    enumerates (Object_keys pre) (Object_keys rest) = true ->
    Forall (fun kv => kept (snd kv) = true /\ f (snd kv) = snd kv) rest ->
    keep_entries f rest pre = (pre ++ rest)%list.
Proof.
  induction rest as [|[key value] rest IH]; simpl; intros pre Henum Hall.
  - now rewrite app_nil_r.
  - apply andb_prop in Henum as [Hfits Henum].
    inversion Hall as [|? ? [Hkept Hsame] Hall']; subst. simpl in *.
    rewrite Hkept, Hsame, (set_fits _ _ _ Hfits), IH; [now rewrite <- app_assoc| |assumption].
    unfold Object_keys in *. now rewrite map_app.
Qed.

(** X2. A value with nothing to remove comes back as it is: when every
    Record lists distinct keys in the order of a JavaScript object, without
    the key [__proto__], no Sequence holds [null] and no Record entry is
    [null], the empty string, an empty array or an empty object. *)
Theorem removeNullsAndEmpty_clean v :
  well_formed v = true -> clean v = true -> removeNullsAndEmpty v = v.
Proof.
  induction v as [| s | items IH | entries IH] using Value_induction; simpl;
    intros Hwf Hclean; try reflexivity.
  - f_equal. rewrite forallb_forall in Hwf, Hclean. rewrite Forall_forall in IH.
    assert (Hmap : map removeNullsAndEmpty items = items).
    { rewrite <- (map_id items) at 2. apply map_ext_in. intros item Hitem.
      specialize (Hclean item Hitem). apply andb_prop in Hclean as [_ Hc]. auto. }
    rewrite Hmap. apply forallb_filter_id. apply forallb_forall. intros item Hitem.
    specialize (Hclean item Hitem). now apply andb_prop in Hclean as [Hn _].
  - f_equal. apply andb_prop in Hwf as [Henum Hwf]. unfold Object_entries.
    rewrite forallb_forall in Hwf, Hclean. rewrite Forall_forall in IH.
    apply (keep_entries_same removeNullsAndEmpty entries []); [assumption|].
    apply Forall_forall. intros kv Hkv.
    specialize (Hclean kv Hkv). apply andb_prop in Hclean as [Hk Hc]. auto.
Qed.

Lemma removeNullsAndEmpty_clean_witness :
  (well_formed clean_example = true /\ clean clean_example = true) /\
  removeNullsAndEmpty clean_example = clean_example.
Proof.
  assert (H1 : well_formed clean_example = true) by (vm_compute; reflexivity).
  assert (H2 : clean clean_example = true) by (vm_compute; reflexivity).
  split; [split; assumption|].
  exact (removeNullsAndEmpty_clean clean_example H1 H2).
Defined.

Lemma key_fits_fewer before before' k :
  incl before' before -> key_fits before k = true -> key_fits before' k = true.
Proof.
  unfold key_fits. intros Hincl H.
  apply andb_prop in H as [H Hidx]. apply andb_prop in H as [Hnew Hproto].
  rewrite Hproto, andb_true_r. apply andb_true_intro. split.
  - apply negb_true_iff. apply negb_true_iff in Hnew.
    destruct (existsb (String.eqb k) before') eqn:E; [|reflexivity].
    apply existsb_exists in E as [x [Hx Ex]].
    rewrite <- Hnew. symmetry. apply existsb_exists. exists x. auto.
  - destruct (array_index k); [|reflexivity].
    rewrite forallb_forall in Hidx. apply forallb_forall. auto.
Qed.

Lemma keep_entries_filter f rest :
  forall before pre,
    enumerates before (Object_keys rest) = true ->
    incl (Object_keys pre) before ->
    keep_entries f rest pre
    = (pre ++ map (fun kv => (fst kv, f (snd kv)))
                  (filter (fun kv => kept (snd kv)) rest))%list.
Proof.
  induction rest as [|[key value] rest IH]; simpl; intros before pre Henum Hincl.
  - now rewrite app_nil_r.
  - apply andb_prop in Henum as [Hfits Henum].
    destruct (kept value) eqn:Hkept; simpl.
    + rewrite (set_fits pre key (f value) (key_fits_fewer _ _ _ Hincl Hfits)).
      rewrite (IH (before ++ [key])%list); [now rewrite <- app_assoc|assumption|].
      unfold Object_keys. rewrite map_app. simpl.
      apply incl_app; [now apply incl_appl|apply incl_appr, incl_refl].
    + apply (IH (before ++ [key])%list); [assumption|now apply incl_appl].
Qed.

(** X3. Of a Record whose keys are distinct, in JavaScript's order and
    without [__proto__], exactly the entries that pass the test of lines
    42-44 survive, in their order, each with its cleaned value. The test
    reads the value before it is cleaned: an entry that is not empty is kept
    even when its cleaned value is empty. *)
Theorem removeNullsAndEmpty_record entries :
  enumerates [] (Object_keys entries) = true ->
  removeNullsAndEmpty (Record entries)
  = Record (map (fun kv => (fst kv, removeNullsAndEmpty (snd kv)))
                (filter (fun kv => kept (snd kv)) entries)).
Proof.
  intros Henum. simpl. f_equal. unfold Object_entries.
  apply (keep_entries_filter removeNullsAndEmpty entries [] []); [assumption|].
  apply incl_refl.
Qed.

Lemma removeNullsAndEmpty_record_witness :
  enumerates [] (Object_keys [("a", Sequence [Null]); ("b", Null);
                              ("c", Record [("d", Prim (Str ""))])]) = true /\
  removeNullsAndEmpty (Record [("a", Sequence [Null]); ("b", Null);
                               ("c", Record [("d", Prim (Str ""))])])
  = Record (map (fun kv => (fst kv, removeNullsAndEmpty (snd kv)))
                (filter (fun kv => kept (snd kv))
                        [("a", Sequence [Null]); ("b", Null);
                         ("c", Record [("d", Prim (Str ""))])])).
Proof.
  assert (H : enumerates [] (Object_keys [("a", Sequence [Null]); ("b", Null);
                                          ("c", Record [("d", Prim (Str ""))])]) = true)
    by (vm_compute; reflexivity).
  split; [assumption|].
  exact (removeNullsAndEmpty_record _ H).
Defined.

(** *** The walk after the removal *)

Lemma for_entries_log_values (Q : Value -> Prop) fuel entries :
  Forall (fun kv => forall keyMap out keyMap' log,
            traverse_log fuel (snd kv) keyMap = Some (out, keyMap', log) -> Q out)
         entries ->
  forall result keyMap out keyMap' log,
    Forall Q (Object_values result) ->
    for_entries_log fuel (traverse_log fuel) entries result keyMap
      = Some (out, keyMap', log) ->
    Forall Q (Object_values out).
Proof.
  induction 1 as [|[key value] rest Hvalue _ IH]; simpl;
    intros result keyMap out keyMap' log Hres Hrun.
  - now injection Hrun as <- <- <-.
  - destruct (assign_alias fuel keyMap key) as [km0|]; [|discriminate].
    destruct (traverse_log fuel value km0) as [[[value' km1] log1]|] eqn:E1;
      [|discriminate].
    destruct (for_entries_log fuel _ rest _ km1) as [[[res km2] log2]|] eqn:E2;
      [|discriminate].
    injection Hrun as <- <- <-.
    eapply IH; [|exact E2]. apply Forall_forall. intros x Hx.
    apply values_set in Hx as [->|Hx]; [simpl in Hvalue; eauto|].
    rewrite Forall_forall in Hres. auto.
Qed.

Lemma traverse_log_not_null fuel v keyMap out keyMap' log :
  traverse_log fuel v keyMap = Some (out, keyMap', log) -> not_null out = not_null v.
Proof.
  destruct v; simpl; intros H.
  - now injection H as <- <- <-.
  - now injection H as <- <- <-.
  - destruct (map_items_log _ items keyMap) as [[[o km] lg]|]; [|discriminate].
    now injection H as <- <- <-.
  - destruct (for_entries_log fuel _ _ [] keyMap) as [[[o km] lg]|]; [|discriminate].
    now injection H as <- <- <-.
Qed.

Lemma traverse_log_null_free fuel v :
  forall keyMap out keyMap' log,
    null_free v = true ->
    traverse_log fuel v keyMap = Some (out, keyMap', log) ->
    null_free out = true.
Proof.
  induction v as [| s | items IH | entries IH] using Value_induction;
    simpl; intros keyMap out keyMap' log Hfree Hrun.
  - now injection Hrun as <- <- <-.
  - now injection Hrun as <- <- <-.
  - destruct (map_items_log _ items keyMap) as [[[items' km] lg]|] eqn:E; [|discriminate].
    injection Hrun as <- <- <-. simpl.
    revert keyMap items' km lg E. rewrite forallb_forall in Hfree.
    induction IH as [|item rest Hitem _ IHrest]; simpl; intros keyMap items' km lg E.
    + now injection E as <- <- <-.
    + destruct (traverse_log fuel item keyMap) as [[[item' km1] log1]|] eqn:E1;
        [|discriminate].
      destruct (map_items_log _ rest km1) as [[[rest' km2] log2]|] eqn:E2; [|discriminate].
      injection E as <- <- <-. simpl.
      assert (Hi : not_null item && null_free item = true) by (apply Hfree; now left).
      apply andb_prop in Hi as [Hn Hf].
      rewrite (traverse_log_not_null _ _ _ _ _ _ E1), Hn, (Hitem _ _ _ _ Hf E1). simpl.
      eapply IHrest; [|exact E2]. intros x Hx. apply Hfree. now right.
  - unfold Object_entries in Hrun.
    destruct (for_entries_log fuel _ entries [] keyMap) as [[[res km] lg]|] eqn:E;
      [|discriminate].
    injection Hrun as <- <- <-. simpl.
    apply (forallb_values (fun x => not_null x && null_free x)).
    apply (for_entries_log_values _ fuel entries) with (result := [])
      (keyMap := keyMap) (keyMap' := km) (log := lg); [|constructor|exact E].
    rewrite forallb_forall in Hfree. rewrite Forall_forall in IH.
    apply Forall_forall. intros [key value] Hkv km0 out km' log Hrun. simpl in *.
    assert (Hi : not_null value && null_free value = true) by (apply (Hfree _ Hkv)).
    apply andb_prop in Hi as [Hn Hf].
    rewrite (traverse_log_not_null _ _ _ _ _ _ Hrun), Hn.
    exact (IH _ Hkv _ _ _ _ Hf Hrun).
Qed.

(** X4. In a response of the handler, the value serialized at level 4,
    [shortenKeys(removeNullsAndEmpty(data), {})], has no [null] below its
    root, whatever the parsed data. *)
Theorem short_keys_level_null_free fuel data out keyMap :
  short_keys_level fuel data = Some (out, keyMap) -> null_free out = true.
Proof.
  unfold short_keys_level. rewrite shortenKeys_traverse. unfold traverse.
  destruct (traverse_log fuel _ _) as [[[o km] lg]|] eqn:E; [|discriminate].
  intros [= <- <-].
  eapply traverse_log_null_free; [|exact E].
  apply removeNullsAndEmpty_output_facts.
Qed.

Lemma short_keys_level_null_free_witness :
  short_keys_level 1 (Record [("role", Null); ("tags", Sequence [Null; Prim (Str "x")])])
  = Some (Record [("tgs", Sequence [Prim (Str "x")])],
          JsObject.set COMMON_KEY_MAPPINGS "tags" "tgs") /\
  null_free (Record [("tgs", Sequence [Prim (Str "x")])]) = true.
Proof.
  assert (H : short_keys_level 1
                (Record [("role", Null); ("tags", Sequence [Null; Prim (Str "x")])])
              = Some (Record [("tgs", Sequence [Prim (Str "x")])],
                      JsObject.set COMMON_KEY_MAPPINGS "tags" "tgs"))
    by (vm_compute; reflexivity).
  split; [assumption|].
  exact (short_keys_level_null_free 1 _ _ _ H).
Defined.

(** *** shortenKeys: the table *)

(** X5. The walk gives out no alias twice: called with a table that is not
    empty and whose aliases are pairwise distinct, [shortenKeys] returns a
    table whose aliases are pairwise distinct. *)
Theorem aliases_stay_distinct fuel obj keyMap out keyMap' :
  keyMap <> [] ->
  NoDup (Object_values keyMap) ->
  shortenKeys fuel obj keyMap = Some (out, keyMap') ->
  NoDup (Object_values keyMap').
Proof.
  intros Hne Hnd Hrun. eapply shortenKeys_distinct; [|exact Hrun].
  now rewrite initialize_not_empty.
Qed.

Lemma aliases_stay_distinct_witness :
  ([("name", "n")] <> [] /\
   NoDup (Object_values [("name", "n")]) /\
   shortenKeys 2 (Record [("node", Null); ("Name", Null)]) [("name", "n")]
   = Some (Record [("nd", Null); ("nm", Null)],
           [("name", "n"); ("node", "nd"); ("Name", "nm")])) /\
  NoDup (Object_values [("name", "n"); ("node", "nd"); ("Name", "nm")]).
Proof.
  assert (H1 : [("name", "n")] <> @nil (string * string)) by discriminate.
  assert (H2 : NoDup (Object_values [("name", "n")]))
    by (simpl; constructor; [intros []|constructor]).
  assert (H3 : shortenKeys 2 (Record [("node", Null); ("Name", Null)]) [("name", "n")]
               = Some (Record [("nd", Null); ("nm", Null)],
                       [("name", "n"); ("node", "nd"); ("Name", "nm")]))
    by (vm_compute; reflexivity).
  split; [repeat split; assumption|].
  exact (aliases_stay_distinct 2 _ _ _ _ H1 H2 H3).
Defined.

Lemma falsy_not_proto keyMap key :
  falsy (get keyMap key) = true -> own keyMap key <> None \/ key <> "__proto__".
Proof.
  unfold get. destruct (own keyMap key); [left; discriminate|].
  intros H. right. intros ->. discriminate H.
Qed.

(** X6. The alias block, lines 108-126. When [keyMap[key]] is falsy and the
    fuel exceeds the size of the table, the block ends; the alias it stores
    under the key is the first of root, root1, root2, ... that is not a
    value of the table, and that alias is the property name line 127 then
    writes to. *)
Theorem alias_derivation fuel keyMap key :
  falsy (get keyMap key) = true ->
  List.length keyMap < fuel ->
  exists n keyMap',
    assign_alias fuel keyMap key = Some keyMap' /\
    keyMap' = JsObject.set keyMap key (trial (short_of key) n) /\
    own keyMap' key = Some (trial (short_of key) n) /\
    to_key (get keyMap' key) = trial (short_of key) n /\
    ~ In (trial (short_of key) n) (Object_values keyMap) /\
    (forall j, j < n -> In (trial (short_of key) j) (Object_values keyMap)) /\
    n <= List.length keyMap.
Proof.
  intros Hfalsy Hfuel.
  destruct (assign_alias_derived fuel keyMap key Hfalsy Hfuel) as [n [Hrun [Hfresh Hmin]]].
  exists n, (JsObject.set keyMap key (trial (short_of key) n)).
  assert (Hown : own (JsObject.set keyMap key (trial (short_of key) n)) key
                 = Some (trial (short_of key) n))
    by (apply own_set_same, falsy_not_proto, Hfalsy).
  repeat split; try assumption.
  - unfold get. now rewrite Hown.
  - apply trials_bounded in Hmin. unfold Object_values in Hmin.
    now rewrite length_map in Hmin.
Qed.

Lemma alias_derivation_witness :
  (falsy (get [("a", "nm"); ("b", "nm1")] "name") = true /\
   List.length [("a", "nm"); ("b", "nm1")] < 3) /\
  exists n keyMap',
    assign_alias 3 [("a", "nm"); ("b", "nm1")] "name" = Some keyMap' /\
    keyMap' = JsObject.set [("a", "nm"); ("b", "nm1")] "name" (trial (short_of "name") n) /\
    own keyMap' "name" = Some (trial (short_of "name") n) /\
    to_key (get keyMap' "name") = trial (short_of "name") n /\
    ~ In (trial (short_of "name") n) (Object_values [("a", "nm"); ("b", "nm1")]) /\
    (forall j, j < n ->
               In (trial (short_of "name") j) (Object_values [("a", "nm"); ("b", "nm1")])) /\
    n <= List.length [("a", "nm"); ("b", "nm1")].
Proof.
  assert (H1 : falsy (get [("a", "nm"); ("b", "nm1")] "name") = true) by reflexivity.
  assert (H2 : List.length [("a", "nm"); ("b", "nm1")] < 3) by (simpl; lia).
  split; [split; assumption|].
  exact (alias_derivation 3 [("a", "nm"); ("b", "nm1")] "name" H1 H2).
Defined.

(** *** shortenKeys: the root of an alias, lines 110-115 *)

Lemma length_toLowerCase s : String.length (toLowerCase s) = String.length s.
Proof. induction s; simpl; congruence. Qed.

Lemma length_substring_0 n s : String.length (substring 0 n s) <= n.
Proof.
  revert s. induction n as [|n IH]; intros [|c r]; simpl; try lia.
  specialize (IH r). lia.
Qed.

Lemma lower_unit_vowel c : is_vowel (lower_unit c) = is_vowel c.
Proof.
  destruct c as [[] [] [] [] [] [] [] []]; vm_compute; reflexivity.
Qed.

Lemma lower_unit_idem c : lower_unit (lower_unit c) = lower_unit c.
Proof.
  destruct c as [[] [] [] [] [] [] [] []]; vm_compute; reflexivity.
Qed.

Lemma toLowerCase_idem s : toLowerCase (toLowerCase s) = toLowerCase s.
Proof. induction s; simpl; [reflexivity|]. now rewrite lower_unit_idem, IHs. Qed.

Lemma remove_vowels_no_vowel s :
  all_chars (fun c => negb (is_vowel c)) (remove_vowels s) = true.
Proof.
  induction s as [|c r IH]; simpl; [reflexivity|].
  destruct (is_vowel c) eqn:E; simpl; [assumption|]. now rewrite E.
Qed.

Lemma substring_0_all p n s :
  all_chars p s = true -> all_chars p (substring 0 n s) = true.
Proof.
  revert s. induction n as [|n IH]; intros [|c r]; simpl; try reflexivity.
  intros H. apply andb_prop in H as [Hc Hr]. now rewrite Hc, IH.
Qed.

Lemma toLowerCase_no_vowel s :
  all_chars (fun c => negb (is_vowel c)) s = true ->
  all_chars (fun c => negb (is_vowel c)) (toLowerCase s) = true.
Proof.
  induction s as [|c r IH]; simpl; [reflexivity|]. intros H.
  apply andb_prop in H as [Hc Hr]. now rewrite lower_unit_vowel, Hc, IH.
Qed.

Lemma is_empty_true s : is_empty s = true <-> s = "".
Proof. destruct s; simpl; split; congruence. Qed.

Lemma toLowerCase_empty s : toLowerCase s = "" <-> s = "".
Proof. destruct s; simpl; split; congruence. Qed.

Lemma substring_0_empty n s : substring 0 (S n) s = "" <-> s = "".
Proof. destruct s; simpl; split; congruence. Qed.

(** X13. For a key whose code units are all below 256 (ASCII and Latin-1,
    the strings of this model, on which [toLowerCase] maps unit to unit):
    the root of its alias (lines 110-115) has at most three characters and
    is in lower case, it is empty for the empty key only, and it holds no
    vowel unless the key has nothing but vowels. *)
Theorem short_of_root key :
  String.length (short_of key) <= 3 /\
  toLowerCase (short_of key) = short_of key /\
  (short_of key = "" <-> key = "") /\
  (remove_vowels key <> "" ->
   all_chars (fun c => negb (is_vowel c)) (short_of key) = true).
Proof.
  unfold short_of.
  destruct (is_empty (toLowerCase (substring 0 3 (remove_vowels key)))) eqn:E.
  - apply is_empty_true in E. apply toLowerCase_empty, substring_0_empty in E.
    repeat split.
    + rewrite length_toLowerCase. pose proof (length_substring_0 2 key). lia.
    + apply toLowerCase_idem.
    + intros H. now apply toLowerCase_empty, substring_0_empty in H.
    + intros ->. reflexivity.
    + congruence.
  - repeat split.
    + rewrite length_toLowerCase. apply length_substring_0.
    + apply toLowerCase_idem.
    + intros H. rewrite H in E. discriminate E.
    + intros ->. discriminate E.
    + intros _. apply toLowerCase_no_vowel, substring_0_all, remove_vowels_no_vowel.
Qed.

(** *** shortenKeys: which keys the table has *)

Lemma assign_alias_keys fuel keyMap key keyMap' :
  assign_alias fuel keyMap key = Some keyMap' ->
  forall k, own keyMap' k <> None -> own keyMap k <> None \/ k = key.
Proof.
  unfold assign_alias. destruct (falsy (get keyMap key)).
  - destruct (collision_loop fuel keyMap _ _ 1); [|discriminate].
    intros [= <-] k Hk. destruct (String.eqb_spec key k) as [->|Hne]; [now right|].
    left. now rewrite own_set_other in Hk.
  - intros [= <-] k Hk. now left.
Qed.

Lemma assign_alias_keeps_keys fuel keyMap key keyMap' k :
  own keyMap k <> None ->
  assign_alias fuel keyMap key = Some keyMap' ->
  own keyMap' k <> None.
Proof.
  intros Hk. unfold assign_alias. destruct (falsy (get keyMap key)).
  - destruct (collision_loop fuel keyMap _ _ 1); [|discriminate].
    intros [= <-]. destruct (String.eqb_spec key k) as [->|Hne].
    + rewrite own_set_same; [discriminate|now left].
    + now rewrite own_set_other.
  - now intros [= <-].
Qed.

Lemma traverse_log_new_keys fuel v :
  forall keyMap out keyMap' log,
    traverse_log fuel v keyMap = Some (out, keyMap', log) ->
    forall k, own keyMap' k <> None -> own keyMap k <> None \/ In k (record_keys v).
Proof.
  induction v as [| s | items IH | entries IH] using Value_induction;
    simpl; intros keyMap out keyMap' log Hrun k Hk.
  - injection Hrun as <- <- <-. now left.
  - injection Hrun as <- <- <-. now left.
  - destruct (map_items_log _ items keyMap) as [[[items' km] lg]|] eqn:E; [|discriminate].
    injection Hrun as <- <- <-.
    revert keyMap items' km lg E Hk.
    induction IH as [|item rest Hitem _ IHrest]; simpl; intros keyMap items' km lg E Hk.
    + injection E as <- <- <-. now left.
    + destruct (traverse_log fuel item keyMap) as [[[item' km1] log1]|] eqn:E1;
        [|discriminate].
      destruct (map_items_log _ rest km1) as [[[rest' km2] log2]|] eqn:E2; [|discriminate].
      injection E as <- <- <-. rewrite in_app_iff.
      destruct (IHrest _ _ _ _ E2 Hk) as [H|H]; [|tauto].
      destruct (Hitem _ _ _ _ E1 k H); tauto.
  - unfold Object_entries in Hrun.
    destruct (for_entries_log fuel _ entries [] keyMap) as [[[res km] lg]|] eqn:E;
      [|discriminate].
    injection Hrun as <- <- <-.
    generalize (@nil (string * Value)) as result, E. clear E. revert keyMap res km lg Hk.
    induction IH as [|[key value] rest Hvalue _ IHrest]; simpl;
      intros keyMap res km lg Hk result E.
    + injection E as <- <- <-. now left.
    + destruct (assign_alias fuel keyMap key) as [km0|] eqn:E0; [|discriminate].
      destruct (traverse_log fuel value km0) as [[[value' km1] log1]|] eqn:E1;
        [|discriminate].
      destruct (for_entries_log fuel _ rest _ km1) as [[[res' km2] log2]|] eqn:E2;
        [|discriminate].
      injection E as <- <- <-. rewrite in_app_iff. simpl in Hvalue.
      destruct (IHrest _ _ _ _ Hk _ E2) as [H|H]; [|tauto].
      destruct (Hvalue _ _ _ _ E1 k H) as [H'|H']; [|tauto].
      destruct (assign_alias_keys _ _ _ _ E0 k H'); [tauto|subst; tauto].
Qed.

(** X8. The table only grows, and only by keys of the input: every key the
    table has when the walk starts is a key of the returned table, and
    every key of the returned table was in the table at the start (after
    the seeding of lines 97-99) or is a Record key of the input. *)
Theorem table_keys fuel obj keyMap out keyMap' :
  shortenKeys fuel obj keyMap = Some (out, keyMap') ->
  forall k,
    (own (initialize keyMap) k <> None -> own keyMap' k <> None) /\
    (own keyMap' k <> None ->
     own (initialize keyMap) k <> None \/ In k (record_keys obj)).
Proof.
  rewrite shortenKeys_traverse. unfold traverse.
  destruct (traverse_log fuel obj (initialize keyMap)) as [[[o km] lg]|] eqn:E;
    [|discriminate].
  intros [= <- <-] k. split.
  - intros Hk.
    apply (traverse_log_inv (fun t => own t k <> None) (fun _ => True) fuel) in E;
      [tauto| |assumption].
    intros km0 key km1 H0 H1. split; [|exact I]. eauto using assign_alias_keeps_keys.
  - eauto using traverse_log_new_keys.
Qed.

Lemma table_keys_witness :
  shortenKeys 1 (Record [("node", Sequence [Record [("id", Null)]])]) [("name", "n")]
  = Some (Record [("nd", Sequence [Record [("d", Null)]])],
          [("name", "n"); ("node", "nd"); ("id", "d")]) /\
  forall k,
    (own (initialize [("name", "n")]) k <> None ->
     own [("name", "n"); ("node", "nd"); ("id", "d")] k <> None) /\
    (own [("name", "n"); ("node", "nd"); ("id", "d")] k <> None ->
     own (initialize [("name", "n")]) k <> None \/
     In k (record_keys (Record [("node", Sequence [Record [("id", Null)]])]))).
Proof.
  assert (H : shortenKeys 1 (Record [("node", Sequence [Record [("id", Null)]])])
                [("name", "n")]
              = Some (Record [("nd", Sequence [Record [("d", Null)]])],
                      [("name", "n"); ("node", "nd"); ("id", "d")]))
    by (vm_compute; reflexivity).
  split; [assumption|].
  exact (table_keys 1 _ _ _ _ H).
Defined.

Lemma short_of_root_witness :
  remove_vowels "name" <> "" /\
  all_chars (fun c => negb (is_vowel c)) (short_of "name") = true.
Proof.
  assert (H : remove_vowels "name" <> "") by discriminate.
  split; [assumption|].
  exact (proj2 (proj2 (proj2 (short_of_root "name"))) H).
Defined.

(** *** shortenKeys: the shape of the output *)

(** X9. The output has the constructors of the input: [null] and scalars
    come back as they are, an array comes back as an array of the same
    length whose elements are the images of its elements in order, and a
    Record comes back as a Record with at most as many entries, each value
    the image of the value of one of its entries. *)
Theorem shortenKeys_structure fuel obj keyMap out keyMap' :
  shortenKeys fuel obj keyMap = Some (out, keyMap') -> reshaped obj out.
Proof. exact (shortenKeys_reshaped fuel obj keyMap out keyMap'). Qed.

Lemma shortenKeys_structure_witness :
  shortenKeys 1 (Sequence [Record [("type", Null); ("to", Prim (Str "x"))]; Null]) []
  = Some (Sequence [Record [("t", Prim (Str "x"))]; Null], COMMON_KEY_MAPPINGS) /\
  reshaped (Sequence [Record [("type", Null); ("to", Prim (Str "x"))]; Null])
           (Sequence [Record [("t", Prim (Str "x"))]; Null]).
Proof.
  assert (H : shortenKeys 1 (Sequence [Record [("type", Null); ("to", Prim (Str "x"))]; Null])
                []
              = Some (Sequence [Record [("t", Prim (Str "x"))]; Null], COMMON_KEY_MAPPINGS))
    by (vm_compute; reflexivity).
  split; [assumption|].
  exact (shortenKeys_structure 1 _ _ _ _ H).
Defined.

(** *** shortenKeys: what a call writes, on any heap *)

(** X10. Whatever the heap holds, shared or cyclic structures included, a
    call that returns has left every cell that existed before it as it
    was: the arrays and objects it writes are the ones it has created. *)
Theorem heap_cells_kept depth fuel h obj keyMap out h' keyMap' :
  shortenKeys_heap depth fuel h obj keyMap = Some (out, h', keyMap') ->
  List.length h <= List.length h' /\
  forall l c, nth_error h l = Some c -> nth_error h' l = Some c.
Proof.
  intros Hrun. apply shortenKeys_heap_extends in Hrun.
  split; [now apply extends_length|].
  intros l c. now apply extends_nth_error.
Qed.

Lemma heap_cells_kept_witness :
  shortenKeys_heap 3 1 shared_heap (JRef 0) [("x", "x")]
  = Some (JRef 2,
          (shared_heap ++ [ObjectCell [("frs", JRef 3); ("scn", JRef 4)];
                           ArrayCell [JPrim (Str "x")]; ArrayCell [JPrim (Str "x")]])%list,
          [("x", "x"); ("first", "frs"); ("second", "scn")]) /\
  List.length shared_heap
  <= List.length (shared_heap ++ [ObjectCell [("frs", JRef 3); ("scn", JRef 4)];
                                  ArrayCell [JPrim (Str "x")];
                                  ArrayCell [JPrim (Str "x")]])%list /\
  forall l c,
    nth_error shared_heap l = Some c ->
    nth_error (shared_heap ++ [ObjectCell [("frs", JRef 3); ("scn", JRef 4)];
                               ArrayCell [JPrim (Str "x")];
                               ArrayCell [JPrim (Str "x")]])%list l = Some c.
Proof.
  assert (H : shortenKeys_heap 3 1 shared_heap (JRef 0) [("x", "x")]
              = Some (JRef 2,
                      (shared_heap ++ [ObjectCell [("frs", JRef 3); ("scn", JRef 4)];
                                       ArrayCell [JPrim (Str "x")];
                                       ArrayCell [JPrim (Str "x")]])%list,
                      [("x", "x"); ("first", "frs"); ("second", "scn")]))
    by (vm_compute; reflexivity).
  split; [assumption|].
  exact (heap_cells_kept 3 1 shared_heap (JRef 0) _ _ _ _ H).
Defined.

(** *** shortenKeys: calling again with the returned table *)

Lemma collision_loop_result fuel keyMap short :
  forall candidate counter c,
    collision_loop fuel keyMap short candidate counter = Some c ->
    c = candidate \/ exists n, c = short ++ decimal n.
Proof.
  induction fuel as [|fuel IH]; simpl; intros candidate counter c H; [discriminate|].
  destruct (includes (Object_values keyMap) candidate).
  - apply IH in H as [->|H]; eauto.
  - injection H as <-. now left.
Qed.

Lemma short_of_empty_iff key : short_of key = "" <-> key = "".
Proof.
  unfold short_of.
  destruct (is_empty (toLowerCase (substring 0 3 (remove_vowels key)))) eqn:E.
  - split; [|intros ->; reflexivity].
    intros H. now apply toLowerCase_empty, substring_0_empty in H.
  - split; [intros H; rewrite H in E; discriminate E|intros ->; discriminate E].
Qed.

Lemma append_not_empty (s a : string) : a <> "" -> s ++ a <> "".
Proof. destruct s; simpl; [auto|discriminate]. Qed.

(** After the alias block the lookup of a key that is not empty is truthy. *)
Lemma assign_alias_settles fuel keyMap key keyMap' :
  key <> "" ->
  assign_alias fuel keyMap key = Some keyMap' ->
  falsy (get keyMap' key) = false.
Proof.
  intros Hkey. unfold assign_alias. destruct (falsy (get keyMap key)) eqn:Hfalsy.
  - destruct (collision_loop fuel keyMap _ _ 1) as [c|] eqn:Hrun; [|discriminate].
    intros [= <-]. unfold get.
    rewrite own_set_same by (now apply falsy_not_proto). simpl.
    assert (Hc : c <> "").
    { apply collision_loop_result in Hrun as [->|[n ->]].
      - intros H. apply Hkey. now apply short_of_empty_iff.
      - apply append_not_empty, decimal_not_empty. }
    destruct c; [congruence|reflexivity].
  - now intros [= <-].
Qed.

Lemma assign_alias_settled_in fuel keyMap key keyMap' :
  assign_alias fuel keyMap key = Some keyMap' -> settled_in keyMap keyMap'.
Proof.
  unfold assign_alias. destruct (falsy (get keyMap key)) eqn:Hfalsy.
  - destruct (collision_loop fuel keyMap _ _ 1) as [c|]; [|discriminate].
    intros [= <-] k p Hp Hget. destruct (String.eqb_spec key k) as [->|Hne].
    + rewrite Hget in Hfalsy. congruence.
    + unfold get in *. now rewrite own_set_other.
  - intros [= <-] k p Hp Hget. assumption.
Qed.

Lemma settled_in_trans t1 t2 t3 : settled_in t1 t2 -> settled_in t2 t3 -> settled_in t1 t3.
Proof. intros H12 H23 k p Hp Hget. apply H23, H12; assumption. Qed.

Lemma settled_in_refl t : settled_in t t.
Proof. intros k p Hp Hget. assumption. Qed.

Lemma settled_in_step fuel t keyMap key keyMap' :
  settled_in t keyMap ->
  assign_alias fuel keyMap key = Some keyMap' ->
  settled_in t keyMap' /\ True.
Proof. eauto using settled_in_trans, assign_alias_settled_in. Qed.

Lemma traverse_log_settled_in fuel v keyMap out keyMap' log :
  traverse_log fuel v keyMap = Some (out, keyMap', log) -> settled_in keyMap keyMap'.
Proof.
  intros Hrun.
  apply (traverse_log_inv (settled_in keyMap) (fun _ => True) fuel) in Hrun;
    [tauto|apply settled_in_step|apply settled_in_refl].
Qed.

Lemma map_items_log_settled_in fuel items keyMap out keyMap' log :
  map_items_log (traverse_log fuel) items keyMap = Some (out, keyMap', log) ->
  settled_in keyMap keyMap'.
Proof.
  intros Hrun.
  apply (map_items_log_inv (settled_in keyMap) (fun _ => True)) in Hrun;
    [tauto| |apply settled_in_refl].
  apply Forall_forall. intros v _. apply traverse_log_inv, settled_in_step.
Qed.

Lemma for_entries_log_settled_in fuel entries result keyMap out keyMap' log :
  for_entries_log fuel (traverse_log fuel) entries result keyMap
    = Some (out, keyMap', log) ->
  settled_in keyMap keyMap'.
Proof.
  intros Hrun.
  apply (for_entries_log_inv (settled_in keyMap) (fun _ => True) fuel) in Hrun;
    [tauto|apply settled_in_step| |apply settled_in_refl].
  apply Forall_forall. intros v _. apply traverse_log_inv, settled_in_step.
Qed.

Lemma traverse_log_again fuel fuel' v :
  forall keyMap out keyMap1 log,
    traverse_log fuel v keyMap = Some (out, keyMap1, log) ->
    ~ In "" (record_keys v) ->
    forall T, settled_in keyMap1 T ->
      exists log', traverse_log fuel' v T = Some (out, T, log').
Proof.
  induction v as [| s | items IH | entries IH] using Value_induction;
    simpl; intros keyMap out keyMap1 log Hrun Hkeys T HT.
  - injection Hrun as <- <- <-. eauto.
  - injection Hrun as <- <- <-. eauto.
  - destruct (map_items_log _ items keyMap) as [[[items' km] lg]|] eqn:E; [|discriminate].
    injection Hrun as <- <- <-.
    assert (Hloop : exists log',
               map_items_log (traverse_log fuel') items T = Some (items', T, log')).
    { revert keyMap items' km lg E Hkeys HT.
      induction IH as [|item rest Hitem _ IHrest]; simpl;
        intros keyMap items' km lg E Hkeys HT.
      - injection E as <- <- <-. eauto.
      - destruct (traverse_log fuel item keyMap) as [[[item' km1] log1]|] eqn:E1;
          [|discriminate].
        destruct (map_items_log _ rest km1) as [[[rest' km2] log2]|] eqn:E2;
          [|discriminate].
        injection E as <- <- <-. rewrite in_app_iff in Hkeys.
        pose proof (map_items_log_settled_in _ _ _ _ _ _ E2) as H12.
        destruct (Hitem _ _ _ _ E1 ltac:(tauto) T (settled_in_trans _ _ _ H12 HT))
          as [l1 R1].
        destruct (IHrest _ _ _ _ E2 ltac:(tauto) HT) as [l2 R2].
        rewrite R1, R2. eauto. }
    destruct Hloop as [log' R]. rewrite R. eauto.
  - unfold Object_entries in *.
    destruct (for_entries_log fuel _ entries [] keyMap) as [[[res km] lg]|] eqn:E;
      [|discriminate].
    injection Hrun as <- <- <-.
    assert (Hloop : exists log',
               for_entries_log fuel' (traverse_log fuel') entries [] T
               = Some (res, T, log')).
    { revert E. generalize (@nil (string * Value)) as result.
      revert keyMap res km lg Hkeys HT.
      induction IH as [|[key value] rest Hvalue _ IHrest]; simpl;
        intros keyMap res km lg Hkeys HT result E.
      - injection E as <- <- <-. eauto.
      - destruct (assign_alias fuel keyMap key) as [km0|] eqn:E0; [|discriminate].
        destruct (traverse_log fuel value km0) as [[[value' km1] log1]|] eqn:E1;
          [|discriminate].
        destruct (for_entries_log fuel _ rest _ km1) as [[[res' km2] log2]|] eqn:E2;
          [|discriminate].
        injection E as <- <- <-. rewrite in_app_iff in Hkeys. simpl in Hvalue.
        pose proof (traverse_log_settled_in _ _ _ _ _ _ E1) as H01.
        pose proof (for_entries_log_settled_in _ _ _ _ _ _ _ E2) as H12.
        assert (H1T : settled_in km1 T) by eauto using settled_in_trans.
        assert (H0T : settled_in km0 T) by eauto using settled_in_trans.
        assert (Hkey : key <> "") by (intros ->; tauto).
        pose proof (assign_alias_settles _ _ _ _ Hkey E0) as Hsettled.
        pose proof (H0T key _ Hsettled eq_refl) as Hget.
        rewrite assign_alias_kept by (now rewrite Hget). rewrite Hget.
        destruct (Hvalue _ _ _ _ E1 ltac:(tauto) T H1T) as [l1 R1]. rewrite R1.
        destruct (IHrest _ _ _ _ ltac:(tauto) HT _ E2) as [l2 R2]. rewrite R2.
        eauto. }
    destruct Hloop as [log' R]. rewrite R. eauto.
Qed.

(** X11. Calling again with the returned table: when no Record key of the
    input is the empty string, a second call on the same input with the
    table the first call returned gives the same output and leaves the
    table as it is, with any fuel. *)
Theorem shortenKeys_again fuel fuel' obj keyMap out keyMap' :
  ~ In "" (record_keys obj) ->
  shortenKeys fuel obj keyMap = Some (out, keyMap') ->
  shortenKeys fuel' obj keyMap' = Some (out, keyMap').
Proof.
  intros Hkeys. rewrite !shortenKeys_traverse. unfold traverse.
  destruct (traverse_log fuel obj (initialize keyMap)) as [[[o km] lg]|] eqn:E;
    [|discriminate].
  intros [= <- <-].
  assert (Hne : km <> [])
    by (eapply traverse_log_not_empty; [apply initialize_result_not_empty|exact E]).
  rewrite (initialize_not_empty _ Hne).
  destruct (traverse_log_again fuel fuel' obj _ _ _ _ E Hkeys km (settled_in_refl km))
    as [log' R].
  now rewrite R.
Qed.

Lemma shortenKeys_again_witness :
  (~ In "" (record_keys (Record [("node", Null); ("Name", Null)])) /\
   shortenKeys 2 (Record [("node", Null); ("Name", Null)]) [("name", "n")]
   = Some (Record [("nd", Null); ("nm", Null)],
           [("name", "n"); ("node", "nd"); ("Name", "nm")])) /\
  shortenKeys 0 (Record [("node", Null); ("Name", Null)])
              [("name", "n"); ("node", "nd"); ("Name", "nm")]
  = Some (Record [("nd", Null); ("nm", Null)],
          [("name", "n"); ("node", "nd"); ("Name", "nm")]).
Proof.
  assert (H1 : ~ In "" (record_keys (Record [("node", Null); ("Name", Null)])))
    by (simpl; intros [H|[H|[]]]; discriminate H).
  assert (H2 : shortenKeys 2 (Record [("node", Null); ("Name", Null)]) [("name", "n")]
               = Some (Record [("nd", Null); ("nm", Null)],
                       [("name", "n"); ("node", "nd"); ("Name", "nm")]))
    by (vm_compute; reflexivity).
  split; [split; assumption|].
  exact (shortenKeys_again 2 0 _ _ _ _ H1 H2).
Defined.

(** *** shortenKeys: reading the returned table backwards *)

Lemma originals_unique keyMap k a :
  NoDup (Object_values keyMap) -> own keyMap k = Some a -> originals keyMap a = [k].
Proof.
  unfold originals.
  induction keyMap as [|[k0 a0] r IH]; simpl; intros Hnd Hown; [discriminate|].
  inversion Hnd as [|? ? Hhead Htail]; subst.
  destruct (String.eqb_spec k0 k) as [->|Hne].
  - injection Hown as ->. rewrite String.eqb_refl. simpl. f_equal.
    assert (Hnone : forall l : AliasTable,
               ~ In a (Object_values l) ->
               filter (fun kv => String.eqb (snd kv) a) l = []).
    { clear. induction l as [|[k1 a1] l IHl]; simpl; intros H; [reflexivity|].
      destruct (String.eqb_spec a1 a) as [->|_]; [tauto|]. apply IHl. tauto. }
    now rewrite Hnone.
  - destruct (String.eqb_spec a0 a) as [->|_].
    + exfalso. apply Hhead. clear - Hown.
      induction r as [|[k1 a1] r IHr]; simpl in *; [discriminate|].
      destruct (String.eqb k1 k); [injection Hown as ->; now left|right; auto].
    + auto.
Qed.

Lemma traverse_log_written fuel v :
  forall keyMap out keyMap1 log,
    traverse_log fuel v keyMap = Some (out, keyMap1, log) ->
    (forall k, In k (record_keys v) -> k <> "" /\ own Object_prototype k = None) ->
    forall T, settled_in keyMap1 T ->
      Forall (fun e => own T (ev_key e) = Some (ev_alias e)) log.
Proof.
  induction v as [| s | items IH | entries IH] using Value_induction;
    simpl; intros keyMap out keyMap1 log Hrun Hkeys T HT.
  - injection Hrun as <- <- <-. constructor.
  - injection Hrun as <- <- <-. constructor.
  - destruct (map_items_log _ items keyMap) as [[[items' km] lg]|] eqn:E; [|discriminate].
    injection Hrun as <- <- <-.
    revert keyMap items' km lg E Hkeys HT.
    induction IH as [|item rest Hitem _ IHrest]; simpl;
      intros keyMap items' km lg E Hkeys HT.
    + injection E as <- <- <-. constructor.
    + destruct (traverse_log fuel item keyMap) as [[[item' km1] log1]|] eqn:E1;
        [|discriminate].
      destruct (map_items_log _ rest km1) as [[[rest' km2] log2]|] eqn:E2;
        [|discriminate].
      injection E as <- <- <-.
      pose proof (map_items_log_settled_in _ _ _ _ _ _ E2) as H12.
      apply Forall_app. split.
      * eapply Hitem; [exact E1| |eauto using settled_in_trans].
        intros k Hk. apply Hkeys, in_app_iff. now left.
      * eapply IHrest; [exact E2| |assumption].
        intros k Hk. apply Hkeys, in_app_iff. now right.
  - unfold Object_entries in *.
    destruct (for_entries_log fuel _ entries [] keyMap) as [[[res km] lg]|] eqn:E;
      [|discriminate].
    injection Hrun as <- <- <-.
    revert E. generalize (@nil (string * Value)) as result.
    revert keyMap res km lg Hkeys HT.
    induction IH as [|[key value] rest Hvalue _ IHrest]; simpl;
      intros keyMap res km lg Hkeys HT result E.
    + injection E as <- <- <-. constructor.
    + destruct (assign_alias fuel keyMap key) as [km0|] eqn:E0; [|discriminate].
      destruct (traverse_log fuel value km0) as [[[value' km1] log1]|] eqn:E1;
        [|discriminate].
      destruct (for_entries_log fuel _ rest _ km1) as [[[res' km2] log2]|] eqn:E2;
        [|discriminate].
      injection E as <- <- <-. simpl in Hvalue.
      pose proof (traverse_log_settled_in _ _ _ _ _ _ E1) as H01.
      pose proof (for_entries_log_settled_in _ _ _ _ _ _ _ E2) as H12.
      assert (H1T : settled_in km1 T) by eauto using settled_in_trans.
      assert (H0T : settled_in km0 T) by eauto using settled_in_trans.
      destruct (Hkeys key (or_introl eq_refl)) as [Hkey Hproto].
      change (own Object_prototype key = None) in Hproto.
      pose proof (assign_alias_settles _ _ _ _ Hkey E0) as Hsettled.
      pose proof (H0T key _ Hsettled eq_refl) as Hget.
      constructor; [|apply Forall_app; split].
      * cbn [ev_key ev_alias]. unfold get in Hget, Hsettled |- *.
        destruct (own km0 key) as [a|].
        -- destruct (own T key) as [b|]; [|rewrite Hproto in Hget; discriminate Hget].
           injection Hget as ->. reflexivity.
        -- rewrite Hproto in Hsettled. discriminate Hsettled.
      * eapply Hvalue; [exact E1| |assumption].
        intros k Hk. apply Hkeys. right. apply in_app_iff. now left.
      * eapply IHrest; [| |exact E2]; [|assumption].
        intros k Hk. apply Hkeys. right. apply in_app_iff. now right.
Qed.

(** X12. The round trip the code does give. When the aliases of the table
    at the start of the walk (after the seeding of lines 97-99) are
    pairwise distinct, and no Record key of the input is the empty string
    or the name of a property inherited from [Object.prototype], every
    property name written to the output is the alias, in the returned
    table, of exactly one key: the key it was written for. *)
Theorem round_trip fuel obj keyMap out keyMap' log :
  NoDup (Object_values (initialize keyMap)) ->
  (forall k, In k (record_keys obj) -> k <> "" /\ own Object_prototype k = None) ->
  shortenKeys_log fuel obj keyMap = Some (out, keyMap', log) ->
  Forall (fun e => originals keyMap' (ev_alias e) = [ev_key e]) log.
Proof.
  intros Hnd Hkeys Hrun. unfold shortenKeys_log in Hrun.
  pose proof (traverse_log_distinct _ _ _ _ _ _ Hnd Hrun) as Hnd'.
  pose proof (traverse_log_written _ _ _ _ _ _ Hrun Hkeys keyMap' (settled_in_refl _))
    as Hlog.
  eapply Forall_impl; [|exact Hlog]. intros e He. now apply originals_unique.
Qed.

Lemma round_trip_witness :
  (NoDup (Object_values (initialize [("name", "n")])) /\
   (forall k, In k (record_keys (Record [("node", Null); ("Name", Null)])) ->
              k <> "" /\ own Object_prototype k = None) /\
   shortenKeys_log 2 (Record [("node", Null); ("Name", Null)]) [("name", "n")]
   = Some (Record [("nd", Null); ("nm", Null)],
           [("name", "n"); ("node", "nd"); ("Name", "nm")],
           [mkEvent "node" "nd" true; mkEvent "Name" "nm" true])) /\
  Forall (fun e => originals [("name", "n"); ("node", "nd"); ("Name", "nm")] (ev_alias e)
                   = [ev_key e])
         [mkEvent "node" "nd" true; mkEvent "Name" "nm" true].
Proof.
  assert (H1 : NoDup (Object_values (initialize [("name", "n")])))
    by (simpl; constructor; [intros []|constructor]).
  assert (H2 : forall k, In k (record_keys (Record [("node", Null); ("Name", Null)])) ->
                         k <> "" /\ own Object_prototype k = None).
  { simpl. intros k [<-|[<-|[]]]; split; (discriminate || reflexivity). }
  assert (H3 : shortenKeys_log 2 (Record [("node", Null); ("Name", Null)]) [("name", "n")]
               = Some (Record [("nd", Null); ("nm", Null)],
                       [("name", "n"); ("node", "nd"); ("Name", "nm")],
                       [mkEvent "node" "nd" true; mkEvent "Name" "nm" true]))
    by (vm_compute; reflexivity).
  split; [repeat split; try assumption; apply H2; assumption|].
  exact (round_trip 2 _ _ _ _ _ H1 H2 H3).
Defined.

(** *** shortenKeys: aliases that are not empty *)

(** X7. After the alias block, lines 108-126, the lookup [keyMap[key]] of
    a key that is not the empty string is truthy: the root of such a key is
    not empty, so the alias stored for it is not empty and the key is not
    derived again. *)
Theorem alias_block_settles fuel keyMap key keyMap' :
  key <> "" ->
  assign_alias fuel keyMap key = Some keyMap' ->
  short_of key <> "" /\ falsy (get keyMap' key) = false.
Proof.
  intros Hkey Hrun. split.
  - intros H. apply Hkey. now apply short_of_empty_iff.
  - eapply assign_alias_settles; eassumption.
Qed.

Lemma alias_block_settles_witness :
  ("name" <> "" /\
   assign_alias 2 [("a", "nm")] "name" = Some [("a", "nm"); ("name", "nm1")]) /\
  short_of "name" <> "" /\ falsy (get [("a", "nm"); ("name", "nm1")] "name") = false.
Proof.
  assert (H1 : "name" <> "") by discriminate.
  assert (H2 : assign_alias 2 [("a", "nm")] "name" = Some [("a", "nm"); ("name", "nm1")])
    by (vm_compute; reflexivity).
  split; [split; assumption|].
  exact (alias_block_settles 2 _ "name" _ H1 H2).
Defined.

(** X14. An entry of the table whose alias is not the empty string is
    final: if the table, as the walk starts (after the seeding of lines
    97-99), maps [k] to such an alias, the returned table maps [k] to the
    same alias, every occurrence of [k] in the input is written under that
    alias, and the alias block never runs for [k], even where the derivation
    would give another string. *)
Theorem nonempty_alias_kept fuel obj keyMap k a out keyMap' :
  a <> "" ->
  own (initialize keyMap) k = Some a ->
  shortenKeys fuel obj keyMap = Some (out, keyMap') ->
  own keyMap' k = Some a /\
  exists log,
    shortenKeys_log fuel obj keyMap = Some (out, keyMap', log) /\
    Forall (renders k a) log.
Proof.
  intros Ha Hown Hrun. rewrite <- shortenKeys_log_erase in Hrun.
  destruct (shortenKeys_log fuel obj keyMap) as [[[out0 km0] log]|] eqn:E; [|discriminate].
  simpl in Hrun. injection Hrun as -> ->.
  unfold shortenKeys_log in E.
  destruct (traverse_log_keeps_entry fuel obj k a _ _ _ _ Ha Hown E) as [Hk Hlog].
  split; [assumption|]. exists log. auto.
Qed.

Lemma nonempty_alias_kept_witness :
  ("LV" <> "" /\
   own (initialize [("LicenseValidator", "LV")]) "LicenseValidator" = Some "LV" /\
   shortenKeys 1 (Sequence [Record [("LicenseValidator", Null)];
                            Record [("LicenseValidator", Null); ("Model", Null)]])
               [("LicenseValidator", "LV")]
   = Some (Sequence [Record [("LV", Null)]; Record [("LV", Null); ("mdl", Null)]],
           [("LicenseValidator", "LV"); ("Model", "mdl")])) /\
  own [("LicenseValidator", "LV"); ("Model", "mdl")] "LicenseValidator" = Some "LV" /\
  exists log,
    shortenKeys_log 1 (Sequence [Record [("LicenseValidator", Null)];
                                 Record [("LicenseValidator", Null); ("Model", Null)]])
                    [("LicenseValidator", "LV")]
    = Some (Sequence [Record [("LV", Null)]; Record [("LV", Null); ("mdl", Null)]],
            [("LicenseValidator", "LV"); ("Model", "mdl")], log) /\
    Forall (renders "LicenseValidator" "LV") log.
Proof.
  assert (H1 : "LV" <> "") by discriminate.
  assert (H2 : own (initialize [("LicenseValidator", "LV")]) "LicenseValidator" = Some "LV")
    by reflexivity.
  assert (H3 : shortenKeys 1 (Sequence [Record [("LicenseValidator", Null)];
                                        Record [("LicenseValidator", Null); ("Model", Null)]])
                 [("LicenseValidator", "LV")]
               = Some (Sequence [Record [("LV", Null)]; Record [("LV", Null); ("mdl", Null)]],
                       [("LicenseValidator", "LV"); ("Model", "mdl")]))
    by (vm_compute; reflexivity).
  split; [repeat split; assumption|].
  exact (nonempty_alias_kept 1 _ _ "LicenseValidator" "LV" _ _ H1 H2 H3).
Defined.

(** X15. The built-in seed. Called with the empty table, which lines 97-99
    fill with [COMMON_KEY_MAPPINGS], [shortenKeys] keeps every pair of
    [COMMON_KEY_MAPPINGS]: the returned table still maps the key to the
    built-in alias, every occurrence of the key is written under that
    alias, and the alias block never runs for it. *)
Theorem seed_precedence fuel obj k a out keyMap' :
  own COMMON_KEY_MAPPINGS k = Some a ->
  shortenKeys fuel obj [] = Some (out, keyMap') ->
  own keyMap' k = Some a /\
  exists log,
    shortenKeys_log fuel obj [] = Some (out, keyMap', log) /\
    Forall (renders k a) log.
Proof.
  intros Hseed Hrun. rewrite <- shortenKeys_log_erase in Hrun.
  destruct (shortenKeys_log fuel obj []) as [[[out0 km0] log]|] eqn:E; [|discriminate].
  simpl in Hrun. injection Hrun as -> ->.
  unfold shortenKeys_log in E. rewrite initialize_empty in E.
  destruct (traverse_log_keeps_entry fuel obj k a _ _ _ _
              (COMMON_KEY_MAPPINGS_aliases_not_empty k a Hseed) Hseed E) as [Hown Hlog].
  split; [assumption|]. exists log. auto.
Qed.

Lemma seed_precedence_witness :
  (own COMMON_KEY_MAPPINGS "LicenseValidator" = Some "lv" /\
   shortenKeys 1 (Record [("LicenseValidator", Prim (Str "Started")); ("Model", Null)]) []
   = Some (Record [("lv", Prim (Str "Started")); ("mdl", Null)],
           JsObject.set COMMON_KEY_MAPPINGS "Model" "mdl")) /\
  own (JsObject.set COMMON_KEY_MAPPINGS "Model" "mdl") "LicenseValidator" = Some "lv" /\
  exists log,
    shortenKeys_log 1 (Record [("LicenseValidator", Prim (Str "Started")); ("Model", Null)]) []
    = Some (Record [("lv", Prim (Str "Started")); ("mdl", Null)],
            JsObject.set COMMON_KEY_MAPPINGS "Model" "mdl", log) /\
    Forall (renders "LicenseValidator" "lv") log.
Proof.
  assert (H1 : own COMMON_KEY_MAPPINGS "LicenseValidator" = Some "lv")
    by (vm_compute; reflexivity).
  assert (H2 : shortenKeys 1
                 (Record [("LicenseValidator", Prim (Str "Started")); ("Model", Null)]) []
               = Some (Record [("lv", Prim (Str "Started")); ("mdl", Null)],
                       JsObject.set COMMON_KEY_MAPPINGS "Model" "mdl"))
    by (vm_compute; reflexivity).
  split; [split; assumption|].
  exact (seed_precedence 1 _ "LicenseValidator" "lv" _ _ H1 H2).
Defined.
